(** * IPTV browser: playlist parsing, search and menu navigation

    A shallow embedding of [console-test.py] (class [IPTVBrowser]) and the
    properties its specification states about it.

    Text is modelled as [string] over 8-bit characters (code points 0..255);
    [str.strip], [str.lower], [str.startswith], [str.split] and the
    [re.search] calls of the parser are written out as functions over it.
    The two library calls whose code is not part of the program,
    [fuzz.partial_ratio] and [urllib.parse.urlparse], and the host
    (network, media player) are parameters. *)

From Stdlib Require Import String Ascii List ZArith Bool Lia.
From Stdlib Require Decimal DecimalNat DecimalString.
From Stdlib Require Import Permutation.
Import ListNotations.

Open Scope string_scope.
Open Scope list_scope.

(* ================================================================= *)
(** ** Python string primitives *)

Module PyStr.

(** The double quote character, code 34. *)
Definition dquote : ascii := "034"%char.
Definition newline : ascii := "010"%char.
Definition comma : ascii := ","%char.

(** [str.isspace] on one character of the Latin-1 range: TAB..CR,
    the separators FS..US, space, NEL and the no-break space. *)
Definition isspace (c : ascii) : bool :=
  let n := nat_of_ascii c in
  (((9 <=? n) && (n <=? 13)) || ((28 <=? n) && (n <=? 32))
   || (n =? 133) || (n =? 160))%nat.

(** [str.lower] on one character of the Latin-1 range. *)
Definition lower_char (c : ascii) : ascii :=
  let n := nat_of_ascii c in
  if (((65 <=? n) && (n <=? 90))
      || ((192 <=? n) && (n <=? 222) && negb (n =? 215)))%nat
  then ascii_of_nat (n + 32) else c.

Fixpoint lower (s : string) : string :=
  match s with
  | EmptyString => EmptyString
  | String c r => String (lower_char c) (lower r)
  end.

Fixpoint lstrip (s : string) : string :=
  match s with
  | EmptyString => EmptyString
  | String c r => if isspace c then lstrip r else s
  end.

Fixpoint rstrip (s : string) : string :=
  match s with
  | EmptyString => EmptyString
  | String c r =>
      match rstrip r with
      | EmptyString => if isspace c then EmptyString else String c EmptyString
      | r' => String c r'
      end
  end.

(** [s.strip()] *)
Definition strip (s : string) : string := rstrip (lstrip s).

(** Truth value of a string: [bool(s)]. *)
Definition nonempty (s : string) : bool :=
  match s with EmptyString => false | String _ _ => true end.

(** The rest of [s] after the prefix [p], when [s] starts with [p]. *)
Fixpoint strip_prefix (p s : string) : option string :=
  match p, s with
  | EmptyString, _ => Some s
  | String a p', String b s' =>
      if Ascii.eqb a b then strip_prefix p' s' else None
  | String _ _, EmptyString => None
  end.

(** [s.startswith(p)] *)
Definition startswith (s p : string) : bool :=
  match strip_prefix p s with Some _ => true | None => false end.

(** Every character is white space (so is the empty string). *)
Fixpoint all_space (s : string) : bool :=
  match s with
  | EmptyString => true
  | String c r => isspace c && all_space r
  end.

(** [p in s] for strings: [p] occurs in [s] as a contiguous run. *)
Fixpoint is_substring (p s : string) : bool :=
  startswith s p ||
  match s with
  | EmptyString => false
  | String _ r => is_substring p r
  end.

(** [s.split(sep)] for a one-character separator: never empty. *)
Fixpoint split (sep : ascii) (s : string) : list string :=
  match s with
  | EmptyString => [EmptyString]
  | String c r =>
      if Ascii.eqb c sep then EmptyString :: split sep r
      else match split sep r with
           | [] => [String c EmptyString]
           | h :: t => String c h :: t
           end
  end.

(** [xs[-1]] on a list of strings that is known not to be empty. *)
Definition last_item (xs : list string) : string := last xs EmptyString.

(** Iterating an [io.StringIO]: lines end after each line feed and keep it;
    a last line without line feed is a line too. *)
Fixpoint readlines (s : string) : list string :=
  match s with
  | EmptyString => []
  | String c r =>
      if Ascii.eqb c newline then String c EmptyString :: readlines r
      else match readlines r with
           | [] => [String c EmptyString]
           | l :: ls => String c l :: ls
           end
  end.

(** [mem c s]: the character occurs in the string. *)
Fixpoint mem (c : ascii) (s : string) : bool :=
  match s with
  | EmptyString => false
  | String a r => Ascii.eqb a c || mem c r
  end.

End PyStr.

(* ================================================================= *)
(** ** The attribute patterns of the parser *)

Module Re.
Import PyStr.

(** The longest run of characters other than the double quote, and what
    follows it: the greedy character class of the patterns. *)
Fixpoint span_value (s : string) : string * string :=
  match s with
  | EmptyString => (EmptyString, EmptyString)
  | String c r =>
      if Ascii.eqb c dquote then (EmptyString, s)
      else let (v, rest) := span_value r in (String c v, rest)
  end.

(** Every pattern of the parser is a key, an equals sign, a double quote,
    a captured run of characters other than the double quote, and a double
    quote. [opening key] is its literal start: the key, the equals sign and
    the double quote. *)
Definition opening (key : string) : string :=
  key ++ "=" ++ String dquote EmptyString.

(** The pattern of [key] matched at the start of [s]: its group 1. *)
Definition match_here (key s : string) : option string :=
  match strip_prefix (opening key) s with
  | None => None
  | Some rest =>
      match span_value rest with
      | (v, String c _) => if Ascii.eqb c dquote then Some v else None
      | (_, EmptyString) => None
      end
  end.

(** [pattern.search(s)]: the leftmost match, as its group 1; [None] when
    the pattern matches at no position. *)
Fixpoint search (key s : string) : option string :=
  match match_here key s with
  | Some v => Some v
  | None =>
      match s with
      | EmptyString => None
      | String _ r => search key r
      end
  end.

End Re.

(* ================================================================= *)
(** ** Channels and the playlist parser *)

Record IPTVChannel : Type := mkChannel {
  name : string;
  group : string;
  url : string;
  logo : option string;
  epg_id : option string;
  country : option string;
  language : option string;
  category : option string
}.

Module Parser.
Import PyStr.

(** The keys of the [patterns] table of [_parse_playlist]. *)
Inductive field : Type :=
  | f_name | f_group | f_logo | f_epg_id | f_country | f_language.

Definition key_of (f : field) : string :=
  match f with
  | f_name => "tvg-name"
  | f_group => "group-title"
  | f_logo => "tvg-logo"
  | f_epg_id => "tvg-id"
  | f_country => "tvg-country"
  | f_language => "tvg-language"
  end.

(** [patterns[f].search(line)], as the captured group of the match. *)
Definition patterns (f : field) (line : string) : option string :=
  Re.search (key_of f) line.

(** [extinf_line.split(',')[-1].strip()] *)
Definition after_last_comma (extinf_line : string) : string :=
  strip (last_item (split comma extinf_line)).

(** The body of the inner [try]: the channel built from the pending
    metadata line and the URL line. Nothing in it can raise ([split] never
    returns an empty list), so the record is always built. *)
Definition make_channel (extinf_line line : string) : IPTVChannel :=
  let name :=
    match patterns f_name extinf_line with
    | Some v => v
    | None => after_last_comma extinf_line
    end in
  {| name := name;
     group := match patterns f_group extinf_line with
              | Some v => v
              | None => "Ungrouped"
              end;
     url := line;
     logo := patterns f_logo extinf_line;
     epg_id := patterns f_epg_id extinf_line;
     country := patterns f_country extinf_line;
     language := patterns f_language extinf_line;
     category := None |}.

(** The variables of the loop: [self.channels] and [extinf_line]
    ([line_number] only feeds the log message of a handler that cannot
    run, and is left out). *)
Record loop_state : Type := mkLoop {
  channels : list IPTVChannel;
  extinf_line : option string
}.

(** Truth value of [extinf_line]: neither [None] nor the empty string. *)
Definition pending (st : loop_state) : option string :=
  match extinf_line st with
  | Some e => if nonempty e then Some e else None
  | None => None
  end.

(** One iteration of [for line in buffer]. *)
Definition step (st : loop_state) (raw : string) : loop_state :=
  let line := strip raw in
  if negb (nonempty line) then st
  else if startswith line "#EXTINF:" then
    {| channels := channels st; extinf_line := Some line |}
  else
    match pending st with
    | Some e =>
        if negb (startswith line "#") then
          {| channels := channels st ++ [make_channel e line];
             extinf_line := None |}
        else st
    | None => st
    end.

Definition init : loop_state := {| channels := []; extinf_line := None |}.

(** The loop over the lines that follow the first one. *)
Definition run (st : loop_state) (lines : list string) : loop_state :=
  fold_left step lines st.

(** [_parse_playlist(content)]: the new value of [self.channels]. The
    first [readline] drops the header line unread. *)
Definition _parse_playlist (content : string) : list IPTVChannel :=
  channels (run init (tl (readlines content))).

End Parser.

(* ================================================================= *)
(** ** The browser: fetching, searching, grouping *)

Module Browser.
Import PyStr.

(** The exceptions a call of the browser can end with. *)
Inductive exn : Type :=
  | URLValidationError
  | RequestException
  | PlaylistParsingError
  | VLCNotFoundError
  | ValueError
  | OtherError.

Inductive result (A : Type) : Type :=
  | Return (a : A)
  | Raise (e : exn).
Arguments Return {A} a.
Arguments Raise {A} e.

(** The attributes of an [IPTVBrowser] object (the console apart). *)
Record t : Type := mkBrowser {
  playlist_url : option string;
  channels : list IPTVChannel;
  current_filter : option string
}.

Definition new : t :=
  {| playlist_url := None; channels := []; current_filter := None |}.

(** What [requests.get] hands back when it does not raise. *)
Record response : Type := mkResponse {
  status_code : Z;
  text : string
}.

(** How the request ends: with a response whose body can be read, with a
    [RequestException] of the library, or with any other exception (the
    library lets some through as they are). *)
Inductive fetched : Type :=
  | Got (r : response)
  | RequestFailed
  | Crashed.

Section Fetch.

(** [urlparse(url)]: scheme and netloc, or [None] when it raises. *)
Variable urlparse : string -> option (string * string).

(** [requests.get(url, stream=True, timeout=10)] and the reading of the
    body. *)
Variable http_get : string -> fetched.

Definition validate_url (url : string) : bool :=
  match urlparse url with
  | Some (scheme, netloc) => nonempty scheme && nonempty netloc
  | None => false
  end.

(** [response.raise_for_status()] raises on a 4xx or 5xx status. *)
Definition raises_for_status (r : response) : bool :=
  ((400 <=? status_code r) && (status_code r <? 600))%Z.

(** [fetch_playlist(url)]: the object after the call, and how the call
    ends. An exception leaves the assignments made before it in place. *)
Definition fetch_playlist (self : t) (url : string) : t * result bool :=
  if negb (validate_url url) then (self, Raise URLValidationError)
  else
    let self1 := {| playlist_url := Some url;
                    channels := channels self;
                    current_filter := current_filter self |} in
    match http_get url with
    | RequestFailed => (self1, Raise RequestException)
    | Crashed => (self1, Raise OtherError)
    | Got r =>
        if raises_for_status r then (self1, Raise RequestException)
        else
          let content := text r in
          if negb (startswith (strip content) "#EXTM3U")
          then (self1, Raise PlaylistParsingError)
          else ({| playlist_url := Some url;
                   channels := Parser._parse_playlist content;
                   current_filter := current_filter self |},
                Return true)
    end.

End Fetch.

Section Search.

(** [fuzz.partial_ratio(s1, s2)], a score from 0 to 100. *)
Variable partial_ratio : string -> string -> Z.

(** The loop of [search_channels], over the normalised query. *)
Definition search_loop (query : string) (chans : list IPTVChannel)
  : list IPTVChannel :=
  fold_left
    (fun results channel =>
       if (80 <? partial_ratio query (lower (name channel)))%Z
       then results ++ [channel] else results)
    chans [].

(** [search_channels(query)] over the stored channel list. *)
Definition search_channels (chans : list IPTVChannel) (query : string)
  : list IPTVChannel :=
  let query := lower (strip query) in
  if negb (nonempty query) then [] else search_loop query chans.

End Search.

(** [groups[key].append(channel)] on a [defaultdict(list)]: keys keep the
    order of their first insertion. *)
Fixpoint add_to_group (groups : list (string * list IPTVChannel))
  (key : string) (channel : IPTVChannel) : list (string * list IPTVChannel) :=
  match groups with
  | [] => [(key, [channel])]
  | (k, cs) :: rest =>
      if String.eqb k key then (k, cs ++ [channel]) :: rest
      else (k, cs) :: add_to_group rest key channel
  end.

(** [channel.group or ...] *)
Definition group_key (channel : IPTVChannel) : string :=
  if nonempty (group channel) then group channel else "Ungrouped".

Definition group_channels (chans : list IPTVChannel)
  : list (string * list IPTVChannel) :=
  fold_left (fun groups channel => add_to_group groups (group_key channel) channel)
    chans [].

End Browser.

(* ================================================================= *)
(** ** The interactive shell: channel and group screens *)

Module Shell.
Import PyStr.

Open Scope Z_scope.

Definition is_digit (c : ascii) : bool :=
  let n := nat_of_ascii c in ((48 <=? n) && (n <=? 57))%nat.

Definition digit_value (c : ascii) : Z := Z.of_nat (nat_of_ascii c) - 48.

(** The digits of a decimal literal, single underscores allowed between
    two digits; [after_digit] tells whether the previous character was a
    digit. *)
Fixpoint digits (acc : Z) (after_digit : bool) (s : string) : option Z :=
  match s with
  | EmptyString => if after_digit then Some acc else None
  | String c r =>
      if is_digit c then digits (10 * acc + digit_value c) true r
      else if Ascii.eqb c "_"%char
           then (if after_digit then digits acc false r else None)
           else None
  end.

(** White space as [int()] skips it around a literal: TAB..CR and the
    space, and the NEL and no-break space that it first turns into a
    space. The separators FS..US, which [str.strip] removes, are no white
    space to [int()]. *)
Definition int_space (c : ascii) : bool :=
  let n := nat_of_ascii c in
  (((9 <=? n) && (n <=? 13)) || (n =? 32) || (n =? 133) || (n =? 160))%nat.

Fixpoint int_lstrip (s : string) : string :=
  match s with
  | EmptyString => EmptyString
  | String c r => if int_space c then int_lstrip r else s
  end.

Fixpoint int_rstrip (s : string) : string :=
  match s with
  | EmptyString => EmptyString
  | String c r =>
      match int_rstrip r with
      | EmptyString => if int_space c then EmptyString else String c EmptyString
      | r' => String c r'
      end
  end.

(** The interpreter's limit on the digits of a decimal literal read or
    written (its default since the limit exists, version 3.11). *)
Definition int_max_str_digits : Z := 4300.

(** The digits of a literal, leading zeros included, underscores not. *)
Fixpoint digit_count (s : string) : Z :=
  match s with
  | EmptyString => 0
  | String c r => (if is_digit c then 1 else 0) + digit_count r
  end.

(** A literal without sign: its value, unless it is malformed or has
    more digits than the limit. *)
Definition literal (s : string) : option Z :=
  match digits 0 false s with
  | Some v => if digit_count s <=? int_max_str_digits then Some v else None
  | None => None
  end.

(** [int(s)] on a string: [None] stands for [ValueError]. *)
Definition int (s : string) : option Z :=
  match int_rstrip (int_lstrip s) with
  | String "+"%char r => literal r
  | String "-"%char r => option_map Z.opp (literal r)
  | t => literal t
  end.

(** [xs[i]] with Python's negative indices: [None] stands for
    [IndexError]. *)
Definition index {A : Type} (xs : list A) (i : Z) : option A :=
  let n := Z.of_nat (length xs) in
  let j := if i <? 0 then i + n else i in
  if (0 <=? j) && (j <? n) then nth_error xs (Z.to_nat j) else None.

(** How [subprocess.Popen] ends: the process is started, the call
    raises [ValueError] (an argument it refuses, such as one with a NUL
    character), or it raises any other exception. *)
Inductive launch : Type :=
  | Started
  | BadArgument
  | Failed.

(** The host the player is launched on: what [setup_vlc] finds, and how
    [subprocess.Popen] ends on an argument list. *)
Record host : Type := mkHost {
  setup_vlc : string * bool;
  popen : list string -> launch
}.

(** What an iteration does that the user can observe. *)
Inductive output : Type :=
  | Print (msg : string)
  | Spawn (argv : list string)
  | Pause.

(** [play_channel(channel)] *)
Definition play_channel (h : host) (channel : IPTVChannel)
  : list output * Browser.result bool :=
  let (vlc_path, vlc_exists) := setup_vlc h in
  if negb vlc_exists then ([], Browser.Raise Browser.VLCNotFoundError)
  else
    let argv := [vlc_path; url channel] in
    match popen h argv with
    | Started => ([Spawn argv], Browser.Return true)
    | BadArgument => ([], Browser.Raise Browser.ValueError)
    | Failed => ([], Browser.Raise Browser.OtherError)
    end.

(** How an iteration of a screen's loop ends. *)
Inductive control : Type :=
  | Continue
  | Break
  | Call (chans : list IPTVChannel).

(** One iteration of the loop of [browse_channels], from the answer of
    the prompt on. *)
Definition browse_channels_iter (h : host) (chans : list IPTVChannel)
  (choice : string) : control * list output :=
  if String.eqb (lower choice) "b" then (Break, [])
  else
    match int choice with
    | None => (Continue, [Print "Invalid input"])
    | Some n =>
        let idx := n - 1 in
        if (0 <=? idx) && (idx <? Z.of_nat (length chans)) then
          match nth_error chans (Z.to_nat idx) with
          | Some channel =>
              match play_channel h channel with
              | (out, Browser.Return _) => (Continue, out)
              | (out, Browser.Raise Browser.ValueError) =>
                  (Continue, out ++ [Print "Invalid input"])
              | (out, Browser.Raise Browser.VLCNotFoundError) =>
                  (Continue,
                   out ++ [Print "Error: VLC media player not found"; Pause])
              | (out, Browser.Raise _) =>
                  (Continue,
                   out ++ [Print "An error occurred. Please try again."; Pause])
              end
          | None => (Continue, [Print "Invalid channel number"])
          end
        else (Continue, [Print "Invalid channel number"])
    end.

Definition groups_t : Type := list (string * list IPTVChannel).

(** [groups[name]] *)
Fixpoint lookup (groups : groups_t) (key : string) : option (list IPTVChannel) :=
  match groups with
  | [] => None
  | (k, cs) :: rest => if String.eqb k key then Some cs else lookup rest key
  end.

(** One iteration of the loop of [browse_groups], from the answer of the
    prompt on. *)
Definition browse_groups_iter (groups : groups_t) (choice : string)
  : control * list output :=
  if String.eqb (lower choice) "b" then (Break, [])
  else
    match int choice with
    | None => (Continue, [Print "Invalid group number"])
    | Some n =>
        let idx := n - 1 in
        match index (map fst groups) idx with
        | None => (Continue, [Print "Invalid group number"])
        | Some group_name =>
            match lookup groups group_name with
            | Some chans => (Call chans, [])
            | None =>
                (Break, [Print "An error occurred while browsing groups"; Pause])
            end
        end
    end.

(** The screens, as the loops whose prompt can be waiting. *)
Inductive screen : Type :=
  | ChannelScreen (chans : list IPTVChannel)
  | GroupScreen (groups : groups_t).

(** The shell's position: the screens entered and not left, innermost
    first. *)
Definition position : Type := list screen.

(** The shell answers one prompt. *)
Definition react (h : host) (pos : position) (choice : string)
  : position * list output :=
  match pos with
  | [] => ([], [])
  | ChannelScreen chans :: outer =>
      match browse_channels_iter h chans choice with
      | (Break, out) => (outer, out)
      | (_, out) => (pos, out)
      end
  | GroupScreen groups :: outer =>
      match browse_groups_iter groups choice with
      | (Break, out) => (outer, out)
      | (Continue, out) => (pos, out)
      | (Call chans, out) => (ChannelScreen chans :: pos, out)
      end
  end.

(** The iteration reported an error and nothing else. *)
Definition only_reports (out : list output) : bool :=
  match out with
  | [Print _] => true
  | _ => false
  end.

Close Scope Z_scope.

End Shell.

(* ================================================================= *)
(** ** Playlist text and the vocabulary of the properties *)

Module Text.
Import PyStr.

Definition q : string := String dquote EmptyString.
Definition nl : string := String newline EmptyString.

(** The attribute text: key, equals sign, quoted value. *)
Definition attr (key value : string) : string := key ++ "=" ++ q ++ value ++ q.

(** The example playlist of the specification. *)
Definition example_playlist : string :=
  "#EXTM3U" ++ nl ++
  "#EXTINF:-1 " ++ attr "tvg-name" "News1" ++ " " ++ attr "group-title" "News"
    ++ ",News1" ++ nl ++
  "http://x/1" ++ nl ++
  "#EXTINF:-1,Orphan" ++ nl ++
  "#EXTINF:-1 " ++ attr "group-title" "Sports" ++ ",Game" ++ nl ++
  "http://x/2".

(** Lines written out one after the other, each ended by a line feed. *)
Fixpoint unlines (ls : list string) : string :=
  match ls with
  | [] => EmptyString
  | l :: rest => l ++ nl ++ unlines rest
  end.

(** Lines written out one after the other with a line feed between them;
    the line feed after the last one is there or not, as [trailing]
    says. *)
Fixpoint lines_text (trailing : bool) (ls : list string) : string :=
  match ls with
  | [] => EmptyString
  | l :: rest =>
      l ++
      match rest with
      | [] => if trailing then nl else EmptyString
      | _ => nl ++ lines_text trailing rest
      end
  end.

(** A metadata line: after trimming it starts with the EXTINF tag. *)
Definition is_extinf (raw : string) : bool :=
  startswith (strip raw) "#EXTINF:".

(** A URL line: after trimming it is not blank and not a comment. *)
Definition is_url (raw : string) : bool :=
  nonempty (strip raw) && negb (startswith (strip raw) "#").

(** A line the parser passes over without touching the pending metadata:
    blank, or a comment other than a metadata line. *)
Definition is_inert (raw : string) : bool :=
  negb (nonempty (strip raw))
  || (startswith (strip raw) "#" && negb (is_extinf raw)).

Definition one_line (raw : string) : bool := negb (mem newline raw).

(** A well-formed entry: a metadata line and a URL line, each a single
    line of text. *)
Definition well_formed (p : string * string) : bool :=
  one_line (fst p) && one_line (snd p) && is_extinf (fst p) && is_url (snd p).

(** The entries written as lines; the last line feed of the text is
    there or not, as [trailing] says. *)
Fixpoint entries (trailing : bool) (pairs : list (string * string)) : string :=
  match pairs with
  | [] => EmptyString
  | (m, u) :: rest =>
      m ++ nl ++ u ++
      match rest with
      | [] => if trailing then nl else EmptyString
      | _ => nl ++ entries trailing rest
      end
  end.

(** The header line followed by the entries. *)
Definition playlist (trailing : bool) (pairs : list (string * string)) : string :=
  "#EXTM3U" ++ nl ++ entries trailing pairs.

(** The channel the parser builds from an entry. *)
Definition channel_of (p : string * string) : IPTVChannel :=
  Parser.make_channel (strip (fst p)) (strip (snd p)).

(** The line carries the attribute [key]: somewhere in it stand the key,
    an equals sign and a quoted value. *)
Definition has_attr (key line : string) : Prop :=
  exists pre v post : string, line = (pre ++ attr key v ++ post)%string.

(** The first place where the key, the equals sign and a double quote
    stand in [pre ++ key ++ "=" ++ q ++ ...] is right after [pre]. *)
Definition first_opening (key pre : string) : bool :=
  negb (is_substring (Re.opening key) (pre ++ key ++ "=")).

(** A second sample scorer: 100 for equal strings, 0 otherwise. *)
Definition equality_score (s1 s2 : string) : Z :=
  if String.eqb s1 s2 then 100%Z else 0%Z.

(** A sample scorer for the examples: 100 when one string occurs in the
    other, 0 otherwise. *)
Definition substring_score (s1 s2 : string) : Z :=
  if is_substring s1 s2 || is_substring s2 s1 then 100%Z else 0%Z.

End Text.


(* ================================================================= *)
(** ** Sample data for the examples *)

Module Samples.
Import PyStr Text.

(** The two complete entries of the specification's example. *)
Definition pairs : list (string * string) :=
  [ ("#EXTINF:-1 " ++ attr "tvg-name" "News1" ++ " "
       ++ attr "group-title" "News" ++ ",News1",
     "http://x/1");
    ("#EXTINF:-1 " ++ attr "group-title" "Sports" ++ ",Game",
     "http://x/2") ]%string.

Definition news1 : IPTVChannel :=
  mkChannel "News1" "News" "http://x/1" None None None None None.

Definition game : IPTVChannel :=
  mkChannel "Game" "Sports" "http://x/2" None None None None None.

(** A playlist whose only entry names its channel with one space. *)
Definition blank_name_playlist : string :=
  "#EXTM3U" ++ nl ++
  "#EXTINF:-1 " ++ attr "tvg-name" " " ++ ",Blank" ++ nl ++
  "http://x/3".

Definition blank_channel : IPTVChannel :=
  mkChannel " " "Ungrouped" "http://x/3" None None None None None.

(** A metadata line with two group attributes, the second one empty,
    cut before and after the second one. *)
Definition two_groups_pre : string :=
  "#EXTINF:-1 " ++ attr "group-title" "A" ++ " ".

Definition two_groups_post : string := ",x".

(** The same for two name attributes. *)
Definition two_names_pre : string :=
  "#EXTINF:-1 " ++ attr "tvg-name" "A" ++ " ".

(** A URL parser that accepts every URL, and a server that answers every
    request with a page that is no playlist. *)
Definition urlparse_any (url : string) : option (string * string) :=
  Some ("http", "example.org").

Definition http_get_page (url : string) : Browser.fetched :=
  Browser.Got (Browser.mkResponse 200 "  <html>not a playlist</html>").

Definition stored : Browser.t :=
  Browser.mkBrowser (Some "http://old/list.m3u") [news1; game] None.

(** A host with the player installed. *)
Definition host_with_vlc : Shell.host :=
  Shell.mkHost ("/usr/bin/vlc", true) (fun _ => Shell.Started).

(** The group screen over the channels of the example playlist. *)
Definition example_groups : Shell.groups_t :=
  Browser.group_channels (Parser._parse_playlist example_playlist).

End Samples.

(* ================================================================= *)
(** ** The channel table *)

Module Display.
Import PyStr.

(** The decimal digits of a number that is not negative. *)
Definition decimal (n : nat) : string :=
  DecimalString.NilEmpty.string_of_uint (Nat.to_uint n).

(** [str(n)], and [n] formatted in an f-string, for a number that is not
    negative: its decimal digits; [None] stands for the [ValueError] of a
    number with more digits than the interpreter's limit. *)
Definition str (n : nat) : option string :=
  if (Z.of_nat (String.length (decimal n)) <=? Shell.int_max_str_digits)%Z
  then Some (decimal n) else None.

(** [enumerate(xs, start)] *)
Fixpoint enumerate {A : Type} (start : nat) (xs : list A) : list (nat * A) :=
  match xs with
  | [] => []
  | x :: rest => (start, x) :: enumerate (S start) rest
  end.

(** [s or d] for a string [s]. *)
Definition or_else (s d : string) : string := if nonempty s then s else d.

(** [o or d] for an optional string [o]. *)
Definition opt_or_else (o : option string) (d : string) : string :=
  match o with
  | Some s => or_else s d
  | None => d
  end.

(** A row of the table: number, name, group, language. *)
Definition row : Type := (string * string * string * string)%type.

(** The row [add_row] is called with for a channel and its number;
    [None] when building it raises, and the row is skipped. *)
Definition display_row (ic : nat * IPTVChannel) : option row :=
  let (idx, channel) := ic in
  match str idx with
  | Some number =>
      Some (number, name channel, or_else (group channel) "N/A",
            opt_or_else (language channel) "N/A")
  | None => None
  end.

(** The rows [display_channels] adds to the table, in order. *)
Definition display_channels (chans : list IPTVChannel) : list row :=
  flat_map (fun ic => match display_row ic with
                      | Some r => [r]
                      | None => []
                      end)
           (enumerate 1 chans).

End Display.

(* ================================================================= *)
(** ** Finding the player *)

Module Vlc.
Import PyStr.

(** The table [vlc_paths] of [setup_vlc]: [None] for a system that is no
    key of it. *)
Definition vlc_paths (system : string) : option (list string) :=
  if String.eqb system "Windows" then
    Some [ "C:\Program Files\VideoLAN\VLC\vlc.exe";
           "C:\Program Files (x86)\VideoLAN\VLC\vlc.exe" ]
  else if String.eqb system "Darwin" then
    Some [ "/Applications/VLC.app/Contents/MacOS/VLC" ]
  else if String.eqb system "Linux" then
    Some [ "/usr/bin/vlc"; "/usr/local/bin/vlc" ]
  else None.

Section Host.

(** [platform.system()], [shutil.which] and [os.path.isfile]. *)
Variable system : string.
Variable which : string -> option string.
Variable isfile : string -> bool.

(** The second part of [setup_vlc]: the system's well-known places. *)
Definition known_place : string * bool :=
  match vlc_paths system with
  | Some paths =>
      match find isfile paths with
      | Some path => (path, true)
      | None => (EmptyString, false)
      end
  | None => (EmptyString, false)
  end.

(** [setup_vlc()] *)
Definition setup_vlc : string * bool :=
  match which "vlc" with
  | Some vlc_in_path =>
      if nonempty vlc_in_path then (vlc_in_path, true) else known_place
  | None => known_place
  end.

(** The host as the shell sees it. *)
Definition host_of (popen : list string -> Shell.launch) : Shell.host :=
  Shell.mkHost setup_vlc popen.

End Host.

End Vlc.

(* ================================================================= *)
(** ** The menus and the start of the program *)

Module Menu.
Import PyStr.

Section Session.

Variable partial_ratio : string -> string -> Z.
Variable h : Shell.host.

(** The stored channel list: no menu changes it. *)
Variable chans : list IPTVChannel.

(** One iteration of the loop of [search_menu], from the answer of the
    prompt on. *)
Definition search_menu_iter (query : string)
  : Shell.control * list Shell.output :=
  if String.eqb (lower query) "b" then (Shell.Break, [])
  else
    match Browser.search_channels partial_ratio chans query with
    | [] => (Shell.Continue, [Shell.Print "No channels found"; Shell.Pause])
    | results => (Shell.Call results, [])
    end.

(** The loops whose prompt can be waiting. *)
Inductive frame : Type :=
  | MainMenu
  | SearchMenu
  | Screen (s : Shell.screen).

(** One iteration of the loop of [main_menu], from the answer of the
    prompt on: the loop it enters, if any, or [None] for [break]. *)
Definition main_menu_iter (choice : string) : option (list frame) :=
  if String.eqb choice "1" then Some [Screen (Shell.ChannelScreen chans)]
  else if String.eqb choice "2" then
    Some [Screen (Shell.GroupScreen (Browser.group_channels chans))]
  else if String.eqb choice "3" then Some [SearchMenu]
  else if String.eqb choice "4" then None
  else Some [].

(** The program answers one prompt: the loops entered and not left,
    innermost first, and what the user sees. *)
Definition react (pos : list frame) (answer : string)
  : list frame * list Shell.output :=
  match pos with
  | [] => ([], [])
  | MainMenu :: outer =>
      match main_menu_iter answer with
      | Some entered => (entered ++ pos, [])
      | None => (outer, [])
      end
  | SearchMenu :: outer =>
      match search_menu_iter answer with
      | (Shell.Break, out) => (outer, out)
      | (Shell.Continue, out) => (pos, out)
      | (Shell.Call results, out) =>
          (Screen (Shell.ChannelScreen results) :: pos, out)
      end
  | Screen (Shell.ChannelScreen cs) :: outer =>
      match Shell.browse_channels_iter h cs answer with
      | (Shell.Break, out) => (outer, out)
      | (_, out) => (pos, out)
      end
  | Screen (Shell.GroupScreen groups) :: outer =>
      match Shell.browse_groups_iter groups answer with
      | (Shell.Break, out) => (outer, out)
      | (Shell.Continue, out) => (pos, out)
      | (Shell.Call cs, out) => (Screen (Shell.ChannelScreen cs) :: pos, out)
      end
  end.

(** The answers of a session, one after the other. *)
Fixpoint session (pos : list frame) (answers : list string)
  : list frame * list Shell.output :=
  match answers with
  | [] => (pos, [])
  | a :: rest =>
      let (pos1, out1) := react pos a in
      let (pos2, out2) := session pos1 rest in
      (pos2, out1 ++ out2)
  end.

End Session.

Section Main.

Variable urlparse : string -> option (string * string).
Variable http_get : string -> Browser.fetched.



End Main.

End Menu.

(* ================================================================= *)
(** ** Further vocabulary of the properties *)

Module Vocab.
Import PyStr Text.

(** The lines the parser loop reads: all but the first. *)
Definition body_lines (content : string) : list string :=
  tl (readlines content).

(** A URL as the parser stores it: not empty, no comment, trimmed. *)
Definition good_url (u : string) : bool :=
  nonempty u && negb (startswith u "#") && String.eqb (strip u) u.

(** The channels of the list that go under the group key [k]. *)
Definition members (k : string) (chans : list IPTVChannel)
  : list IPTVChannel :=
  filter (fun c => String.eqb (Browser.group_key c) k) chans.

(** The channels of all groups, group after group. *)
Definition all_members (groups : Shell.groups_t) : list IPTVChannel :=
  concat (map snd groups).

(** Every process the output starts is the player [vlc] on the URL of a
    channel of [chans]. *)
Definition launches_only (vlc : string) (chans : list IPTVChannel)
  (out : list Shell.output) : Prop :=
  forall argv, In (Shell.Spawn argv) out ->
    exists c, In c chans /\ argv = [vlc; url c].

(** A loop of the session shows stored channels only: a channel screen
    a non-empty selection of them, a group screen their groups. *)
Definition frame_ok (chans : list IPTVChannel) (f : Menu.frame) : Prop :=
  match f with
  | Menu.Screen (Shell.ChannelScreen cs) => cs <> [] /\ incl cs chans
  | Menu.Screen (Shell.GroupScreen groups) =>
      groups = Browser.group_channels chans
  | _ => True
  end.

(** Every channel found so far was built from a metadata line and a URL
    line among [all], and so was the pending line. *)
Definition from_lines (all : list string) (st : Parser.loop_state) : Prop :=
  (forall c, In c (Parser.channels st) ->
     exists m u, In m all /\ In u all
                 /\ is_extinf m = true /\ is_url u = true
                 /\ c = channel_of (m, u))
  /\ (forall e, Parser.pending st = Some e ->
        exists m, In m all /\ is_extinf m = true /\ e = strip m).

(** Every character is a decimal digit. *)
Fixpoint all_digits (s : string) : bool :=
  match s with
  | EmptyString => true
  | String c r => Shell.is_digit c && all_digits r
  end.

(** The output starts no process. *)
Definition launches_nothing (out : list Shell.output) : Prop :=
  forall argv, ~ In (Shell.Spawn argv) out.

(** One for a pending metadata line, zero for none. *)
Definition pending_count (st : Parser.loop_state) : nat :=
  match Parser.pending st with Some _ => 1 | None => 0 end.

End Vocab.

(* ================================================================= *)
(** ** More sample data *)

Module MoreSamples.
Import PyStr Text.

Definition cr : string := String "013"%char EmptyString.

(** A channel with a language and one without group and language. *)
Definition tagged : IPTVChannel :=
  mkChannel "Kino" "Movies" "http://x/4" None None None (Some "de") None.

Definition bare : IPTVChannel :=
  mkChannel "Radio" "" "http://x/5" None None None None None.

Definition four : list IPTVChannel :=
  [Samples.news1; tagged; bare; Samples.game].

(** A host without the player. *)
Definition host_without_vlc : Shell.host :=
  Shell.mkHost (EmptyString, false) (fun _ => Shell.Started).

(** A Linux host whose only player is in the second well-known place. *)
Definition isfile_local (path : string) : bool :=
  String.eqb path "/usr/local/bin/vlc".

Definition which_nothing (cmd : string) : option string := None.

(** A server that answers every request with the example playlist. *)
Definition http_get_example (url : string) : Browser.fetched :=
  Browser.Got (Browser.mkResponse 200 example_playlist).

(** A server that answers every request with a bare header. *)
Definition http_get_empty (url : string) : Browser.fetched :=
  Browser.Got (Browser.mkResponse 200 "#EXTM3U").

End MoreSamples.

(* ================================================================= *)
(** ** Facts about the string primitives *)

Module StrFacts.
Import PyStr Text.

Local Open Scope string_scope.
Local Arguments Ascii.eqb : simpl never.

(** Unfold the recursive string functions one step, leaving the named
    constants ([nl], [q]) folded. *)
Ltac step_str :=
  cbn [readlines append mem lstrip rstrip strip_prefix all_space lower
       is_substring split unlines].

Lemma app_assoc (a b c : string) : (a ++ b) ++ c = a ++ b ++ c.
Proof. induction a as [|x a IH]; simpl; [reflexivity | now rewrite IH]. Qed.

Lemma app_nil_r (a : string) : a ++ "" = a.
Proof. induction a as [|x a IH]; simpl; [reflexivity | now rewrite IH]. Qed.

Lemma length_app (a b : string) :
  String.length (a ++ b) = String.length a + String.length b.
Proof. induction a as [|x a IH]; simpl; [reflexivity | now rewrite IH]. Qed.

Lemma strip_prefix_app (p r : string) : strip_prefix p (p ++ r) = Some r.
Proof.
  induction p as [|x p IH]; simpl; [reflexivity|].
  now rewrite Ascii.eqb_refl.
Qed.

Lemma strip_prefix_sound (p s r : string) :
  strip_prefix p s = Some r -> s = p ++ r.
Proof.
  revert s; induction p as [|x p IH]; intros s H; simpl in *.
  - now inversion H.
  - destruct s as [|y s]; [discriminate|].
    destruct (Ascii.eqb_spec x y) as [->|]; [|discriminate].
    now rewrite (IH _ H).
Qed.

Lemma startswith_app (p r : string) : startswith (p ++ r) p = true.
Proof. unfold startswith. now rewrite strip_prefix_app. Qed.

Lemma startswith_sound (s p : string) :
  startswith s p = true -> exists r, s = p ++ r.
Proof.
  unfold startswith. destruct (strip_prefix p s) as [r|] eqn:E; [|discriminate].
  intros _. exists r. now apply strip_prefix_sound.
Qed.

(** A line that does not start with the comment sign does not start with
    the metadata tag. *)
Lemma not_comment_not_extinf (s : string) :
  startswith s "#" = false -> startswith s "#EXTINF:" = false.
Proof.
  destruct s as [|c s]; [reflexivity|].
  unfold startswith. simpl.
  destruct (Ascii.eqb "#" c); [discriminate | reflexivity].
Qed.

(** *** Lines *)

Lemma readlines_line (l rest : string) :
  mem newline l = false ->
  readlines (l ++ nl ++ rest) = (l ++ nl) :: readlines rest.
Proof.
  induction l as [|c l IH]; step_str; intros H.
  - reflexivity.
  - apply orb_false_elim in H as [Hc Hl].
    rewrite Hc, (IH Hl). reflexivity.
Qed.

Lemma readlines_last (l : string) :
  mem newline l = false -> l <> "" -> readlines l = [l].
Proof.
  induction l as [|c l IH]; step_str; intros H Hne; [congruence|].
  apply orb_false_elim in H as [Hc Hl]. rewrite Hc.
  destruct l as [|d l]; [reflexivity|].
  rewrite (IH Hl); [reflexivity | discriminate].
Qed.

Lemma readlines_nl_nonempty (a : string) : readlines (a ++ nl) <> [].
Proof.
  induction a as [|d a IHa]; step_str.
  - discriminate.
  - destruct (Ascii.eqb d newline); [discriminate|].
    destruct (readlines (a ++ nl)); discriminate.
Qed.

Lemma readlines_app (a s : string) :
  readlines (a ++ nl ++ s) = List.app (readlines (a ++ nl)) (readlines s).
Proof.
  induction a as [|c a IH]; step_str.
  - reflexivity.
  - destruct (Ascii.eqb c newline).
    + now rewrite IH.
    + rewrite IH.
      destruct (readlines (a ++ nl)) as [|l ls] eqn:E; [|reflexivity].
      now destruct (readlines_nl_nonempty a).
Qed.

Lemma readlines_unlines (ls : list string) (rest : string) :
  forallb one_line ls = true ->
  readlines (unlines ls ++ rest)
  = List.app (map (fun l => l ++ nl) ls) (readlines rest).
Proof.
  induction ls as [|l ls IH]; cbn [unlines forallb map List.app append];
    intros H; [reflexivity|].
  apply andb_prop in H as [Hl Hls].
  rewrite !app_assoc, readlines_line, (IH Hls); [reflexivity|].
  unfold one_line in Hl. now destruct (mem newline l).
Qed.

(** *** Trimming *)

Lemma lstrip_all_space (w : string) : all_space w = true -> lstrip w = "".
Proof.
  induction w as [|c w IH]; simpl; [reflexivity|].
  intros H. apply andb_prop in H as [Hc Hw]. now rewrite Hc, IH.
Qed.

Lemma rstrip_all_space (w : string) : all_space w = true -> rstrip w = "".
Proof.
  induction w as [|c w IH]; simpl; [reflexivity|].
  intros H. apply andb_prop in H as [Hc Hw]. now rewrite (IH Hw), Hc.
Qed.

Lemma strip_all_space (w : string) : all_space w = true -> strip w = "".
Proof. intros H. unfold strip. now rewrite lstrip_all_space. Qed.

Lemma rstrip_app_space (s w : string) :
  all_space w = true -> rstrip (s ++ w) = rstrip s.
Proof.
  intros Hw. induction s as [|c s IH]; simpl.
  - now apply rstrip_all_space.
  - now rewrite IH.
Qed.

(** Trailing white space, the line feed of a line in particular, does not
    change what [strip] returns. *)
Lemma strip_app_space (s w : string) :
  all_space w = true -> strip (s ++ w) = strip s.
Proof.
  intros Hw. unfold strip. induction s as [|c s IH]; simpl.
  - now rewrite (lstrip_all_space _ Hw).
  - destruct (isspace c); [exact IH|].
    now apply (rstrip_app_space (String c s)).
Qed.

Lemma strip_line (s : string) : strip (s ++ nl) = strip s.
Proof. now apply strip_app_space. Qed.

End StrFacts.

(* ================================================================= *)
(** ** The parser loop *)

Module ParserFacts.
Import PyStr Text Parser StrFacts.

Local Open Scope string_scope.
Local Arguments Ascii.eqb : simpl never.

Lemma extinf_nonempty (s : string) :
  startswith s "#EXTINF:" = true -> nonempty s = true.
Proof.
  intros H. apply startswith_sound in H as [r ->]. reflexivity.
Qed.

(** A metadata line becomes the pending line, whatever was pending. *)
Lemma step_meta (st : loop_state) (raw : string) :
  is_extinf raw = true ->
  step st raw = mkLoop (channels st) (Some (strip raw)).
Proof.
  unfold is_extinf, step. intros H.
  now rewrite (extinf_nonempty _ H), H.
Qed.

(** A URL line after a pending metadata line emits one channel and
    clears the pending line. *)
Lemma step_url (st : loop_state) (raw e : string) :
  extinf_line st = Some e -> nonempty e = true -> is_url raw = true ->
  step st raw
  = mkLoop (List.app (channels st) [make_channel e (strip raw)]) None.
Proof.
  unfold is_url, step, pending. intros He Hne H.
  apply andb_prop in H as [H1 H2]. apply negb_true_iff in H2.
  now rewrite H1, (not_comment_not_extinf _ H2), He, Hne, H2.
Qed.

(** A blank line or a comment that is no metadata line changes nothing. *)
Lemma step_inert (st : loop_state) (raw : string) :
  is_inert raw = true -> step st raw = st.
Proof.
  unfold is_inert, is_extinf, step. intros H.
  destruct (nonempty (strip raw)); [|reflexivity]. simpl in *.
  apply andb_prop in H as [H1 H2]. apply negb_true_iff in H2.
  rewrite H2, H1. simpl. now destruct (pending st).
Qed.

Lemma run_inert (st : loop_state) (gap : list string) :
  forallb is_inert gap = true -> run st gap = st.
Proof.
  unfold run. induction gap as [|l gap IH]; simpl; intros H; [reflexivity|].
  apply andb_prop in H as [Hl Hgap]. now rewrite (step_inert _ _ Hl), IH.
Qed.

Lemma run_app (st : loop_state) (xs ys : list string) :
  run st (List.app xs ys) = run (run st xs) ys.
Proof. apply fold_left_app. Qed.

Lemma is_extinf_line (raw : string) : is_extinf (raw ++ nl) = is_extinf raw.
Proof. unfold is_extinf. now rewrite strip_line. Qed.

Lemma is_url_line (raw : string) : is_url (raw ++ nl) = is_url raw.
Proof. unfold is_url. now rewrite strip_line. Qed.

Lemma is_inert_line (raw : string) : is_inert (raw ++ nl) = is_inert raw.
Proof. unfold is_inert. now rewrite is_extinf_line, strip_line. Qed.

(** The two lines of a well-formed entry, read with or without their line
    feeds, add the entry's channel and leave no line pending. *)
Lemma step_entry (st : loop_state) (p : string * string) (rm ru : string) :
  is_extinf (fst p) = true -> is_url (snd p) = true ->
  strip rm = strip (fst p) -> strip ru = strip (snd p) ->
  step (step st rm) ru
  = mkLoop (List.app (channels st) [channel_of p]) None.
Proof.
  intros Hm Hu Em Eu.
  assert (Hm' : is_extinf rm = true) by (unfold is_extinf in *; now rewrite Em).
  assert (Hu' : is_url ru = true) by (unfold is_url in *; now rewrite Eu).
  rewrite (step_meta st rm Hm').
  rewrite (step_url _ ru (strip rm)); simpl; try reflexivity; try assumption.
  - unfold channel_of. now rewrite Em, Eu.
  - apply extinf_nonempty. exact Hm'.
Qed.

Lemma url_not_empty (u : string) : is_url u = true -> u <> "".
Proof. intros H ->. discriminate H. Qed.

(** The loop over the lines of a run of well-formed entries appends their
    channels, in order, to the channels found so far. *)
Lemma run_entries (trailing : bool) (pairs : list (string * string)) :
  forallb well_formed pairs = true ->
  forall st,
    channels (run st (readlines (entries trailing pairs)))
    = List.app (channels st) (map channel_of pairs).
Proof.
  induction pairs as [|[m u] rest IH]; intros Hwf st.
  - simpl. now rewrite List.app_nil_r.
  - cbn [forallb] in Hwf. apply andb_prop in Hwf as [Hp Hrest].
    unfold well_formed in Hp. cbn [fst snd] in Hp.
    apply andb_prop in Hp as [Hp Hu]. apply andb_prop in Hp as [Hp Hm].
    apply andb_prop in Hp as [Lm Lu].
    unfold one_line in Lm, Lu. apply negb_true_iff in Lm, Lu.
    cbn [entries map]. rewrite (readlines_line m _ Lm).
    assert (Hstep : forall ru, strip ru = strip u ->
              step (step st (m ++ nl)) ru
              = mkLoop (List.app (channels st) [channel_of (m, u)]) None).
    { intros ru Eu. apply step_entry; cbn [fst snd]; auto using strip_line. }
    destruct rest as [|p' rest'].
    + assert (E : readlines (u ++ (if trailing then nl else ""))
                  = [u ++ (if trailing then nl else "")]).
      { destruct trailing.
        - rewrite <- (app_nil_r (u ++ nl)) at 1. rewrite app_assoc.
          rewrite (readlines_line u "" Lu). reflexivity.
        - rewrite app_nil_r. apply readlines_last; auto using url_not_empty. }
      rewrite E. cbn [run fold_left].
      rewrite Hstep; [reflexivity|].
      destruct trailing; [apply strip_line | now rewrite app_nil_r].
    + rewrite (readlines_line u _ Lu).
      change (run st ((m ++ nl) :: (u ++ nl) :: ?ls))
        with (run (step (step st (m ++ nl)) (u ++ nl)) ls).
      rewrite (Hstep _ (strip_line u)), (IH Hrest).
      cbn [channels]. now rewrite <- List.app_assoc.
Qed.

(** The loop looks at the trimmed line only. *)
Lemma step_ext (st : loop_state) (a b : string) :
  strip a = strip b -> step st a = step st b.
Proof. unfold step. now intros ->. Qed.

Lemma run_cons (st : loop_state) (l : string) (ls : list string) :
  run st (l :: ls) = run (step st l) ls.
Proof. reflexivity. Qed.

(** The parse of a text, cut after a line feed: the loop runs on over the
    lines of the second part. *)
Lemma parse_after (pre s : string) :
  _parse_playlist (pre ++ nl ++ s)
  = channels (run (run init (tl (readlines (pre ++ nl)))) (readlines s)).
Proof.
  unfold _parse_playlist. rewrite readlines_app.
  destruct (readlines (pre ++ nl)) as [|hd before] eqn:E;
    [now destruct (readlines_nl_nonempty pre)|].
  cbn [tl List.app]. now rewrite run_app.
Qed.

Lemma one_line_mem (l : string) : one_line l = true -> mem newline l = false.
Proof. unfold one_line. now destruct (mem newline l). Qed.

Lemma lines_text_true (ls : list string) : lines_text true ls = unlines ls.
Proof.
  induction ls as [|l rest IH]; [reflexivity|].
  cbn [lines_text unlines]. rewrite <- IH.
  destruct rest; [now rewrite app_nil_r | reflexivity].
Qed.

(** Whether the last line of a text ends with a line feed makes no
    difference to the loop. *)
Lemma run_lines_text (ls : list string) (st : loop_state) :
  forallb one_line ls = true ->
  run st (readlines (lines_text false ls)) = run st (readlines (unlines ls)).
Proof.
  revert st. induction ls as [|l rest IH]; intros st H; [reflexivity|].
  cbn [forallb] in H. apply andb_prop in H as [Hl Hrest].
  apply one_line_mem in Hl.
  cbn [lines_text unlines]. destruct rest as [|l2 rest].
  - cbn [unlines]. rewrite app_nil_r, (readlines_line l "" Hl).
    destruct l as [|c l].
    + cbn [readlines]. symmetry. rewrite run_cons. now apply step_inert.
    + rewrite readlines_last by (auto; discriminate).
      rewrite !run_cons. f_equal. apply step_ext. now rewrite strip_line.
  - rewrite !(readlines_line l _ Hl), !run_cons. now apply IH.
Qed.

(** A metadata line followed by inert lines only, up to the next metadata
    line or the end of the lines, adds no channel. *)
Lemma orphan_block (st : loop_state) (orphan : string)
  (gap rest : list string) :
  is_extinf orphan = true -> forallb is_inert gap = true ->
  match rest with [] => true | next :: _ => is_extinf next end = true ->
  channels
    (run st (List.app (map (fun l => l ++ nl) (orphan :: gap)) rest))
  = channels (run st rest).
Proof.
  intros Ho Hgap Hrest. cbn [map List.app]. rewrite run_cons.
  rewrite step_meta by now rewrite is_extinf_line.
  rewrite run_app.
  rewrite (run_inert _ (map (fun l => l ++ nl) gap)).
  - destruct rest as [|next rest]; [reflexivity|].
    rewrite !run_cons. now rewrite !(step_meta _ next Hrest).
  - rewrite forallb_forall in *. intros l Hl.
    apply in_map_iff in Hl as (l0 & <- & Hl0).
    rewrite is_inert_line. now apply Hgap.
Qed.

End ParserFacts.

(* ================================================================= *)
(** ** Case folding and trimming commute *)

Module CaseFacts.
Import PyStr Text StrFacts.

Local Open Scope string_scope.
Local Arguments Ascii.eqb : simpl never.

Ltac all_chars c := destruct c as [[] [] [] [] [] [] [] []]; reflexivity.

Lemma isspace_lower_char (c : ascii) : isspace (lower_char c) = isspace c.
Proof. all_chars c. Qed.

Lemma lower_char_idem (c : ascii) : lower_char (lower_char c) = lower_char c.
Proof. all_chars c. Qed.

Lemma lower_idem (s : string) : lower (lower s) = lower s.
Proof.
  induction s as [|c s IH]; simpl; [reflexivity|].
  now rewrite lower_char_idem, IH.
Qed.

Lemma lower_app (a b : string) : lower (a ++ b) = lower a ++ lower b.
Proof. induction a as [|c a IH]; simpl; [reflexivity | now rewrite IH]. Qed.


Lemma lstrip_lower (s : string) : lstrip (lower s) = lower (lstrip s).
Proof.
  induction s as [|c s IH]; simpl; [reflexivity|].
  rewrite isspace_lower_char. now destruct (isspace c).
Qed.

Lemma rstrip_lower (s : string) : rstrip (lower s) = lower (rstrip s).
Proof.
  induction s as [|c s IH]; simpl; [reflexivity|].
  rewrite IH, isspace_lower_char.
  destruct (rstrip s); simpl; [now destruct (isspace c) | reflexivity].
Qed.

Lemma strip_lower (s : string) : strip (lower s) = lower (strip s).
Proof. unfold strip. now rewrite lstrip_lower, rstrip_lower. Qed.

Lemma lstrip_suffix (s : string) : exists pre, s = pre ++ lstrip s.
Proof.
  induction s as [|c s [pre IH]]; simpl.
  - now exists "".
  - destruct (isspace c).
    + exists (String c pre). simpl. now rewrite <- IH.
    + now exists "".
Qed.

Lemma rstrip_prefix (s : string) : exists post, s = rstrip s ++ post.
Proof.
  induction s as [|c s [post IH]]; simpl.
  - now exists "".
  - destruct (rstrip s) as [|d r] eqn:E.
    + destruct (isspace c).
      * now exists (String c s).
      * exists post. simpl in *. now rewrite <- IH.
    + exists post. simpl in *. now rewrite <- IH.
Qed.

(** The trimmed string occurs in the string it was trimmed from. *)
Lemma strip_occurs (s : string) : exists pre post, s = pre ++ strip s ++ post.
Proof.
  destruct (lstrip_suffix s) as [pre Hpre].
  destruct (rstrip_prefix (lstrip s)) as [post Hpost].
  exists pre, post. unfold strip. now rewrite <- Hpost.
Qed.

Lemma strip_prefix_refl (s : string) : strip_prefix s s = Some "".
Proof. rewrite <- (app_nil_r s) at 2. apply strip_prefix_app. Qed.

Lemma is_substring_here (p r : string) : is_substring p (p ++ r) = true.
Proof.
  destruct (p ++ r) eqn:E; simpl; rewrite <- E, startswith_app; reflexivity.
Qed.

Lemma is_substring_app (p pre post : string) :
  is_substring p (pre ++ p ++ post) = true.
Proof.
  induction pre as [|c pre IH].
  - cbn [append]. apply is_substring_here.
  - cbn [append is_substring]. rewrite IH. apply orb_true_r.
Qed.

(** The sample scorer rates a string against one that contains it 100. *)
Lemma substring_score_occurs (p pre post : string) :
  substring_score p (pre ++ p ++ post) = 100%Z.
Proof. unfold substring_score. now rewrite is_substring_app. Qed.

Lemma substring_score_refl (s : string) : substring_score s s = 100%Z.
Proof.
  rewrite <- (app_nil_r s) at 2. apply (substring_score_occurs s "" "").
Qed.

End CaseFacts.

(* ================================================================= *)
(** ** Search *)

Module SearchFacts.
Import PyStr Text StrFacts CaseFacts Browser.

(** Appending the elements that pass a test, one at a time, is [filter]. *)
Lemma fold_append_filter {A : Type} (p : A -> bool) (xs acc : list A) :
  fold_left (fun results x => if p x then results ++ [x] else results) xs acc
  = acc ++ filter p xs.
Proof.
  revert acc. induction xs as [|x xs IH]; intros acc; simpl.
  - now rewrite List.app_nil_r.
  - rewrite IH. destruct (p x); [|reflexivity].
    now rewrite <- List.app_assoc.
Qed.

Lemma search_loop_filter (partial_ratio : string -> string -> Z)
  (query : string) (chans : list IPTVChannel) :
  search_loop partial_ratio query chans
  = filter (fun c => (80 <? partial_ratio query (lower (name c)))%Z) chans.
Proof. unfold search_loop. now rewrite fold_append_filter. Qed.

Lemma search_channels_filter (partial_ratio : string -> string -> Z)
  (chans : list IPTVChannel) (query : string) :
  search_channels partial_ratio chans query
  = if nonempty (lower (strip query))
    then filter
           (fun c => (80 <? partial_ratio (lower (strip query))
                                          (lower (name c)))%Z)
           chans
    else [].
Proof.
  unfold search_channels.
  destruct (nonempty (lower (strip query))); [|reflexivity].
  apply search_loop_filter.
Qed.

End SearchFacts.

(* ================================================================= *)
(** ** The attribute patterns find exactly the attributes *)

Module ReFacts.
Import PyStr Text StrFacts Re.

Local Open Scope string_scope.
Local Arguments Ascii.eqb : simpl never.

Lemma search_unfold (key s : string) :
  search key s =
  match match_here key s with
  | Some v => Some v
  | None => match s with
            | EmptyString => None
            | String _ r => search key r
            end
  end.
Proof. now destruct s. Qed.

Lemma span_value_sound (s v rest : string) :
  span_value s = (v, rest) -> s = v ++ rest.
Proof.
  revert v rest. induction s as [|c s IH]; simpl; intros v rest H.
  - now inversion H.
  - destruct (Ascii.eqb c dquote).
    + now inversion H.
    + destruct (span_value s) as [v' rest'] eqn:E. inversion H; subst.
      simpl. now rewrite (IH _ _ eq_refl).
Qed.

(** Where a double quote follows, the captured run ends at one. *)
Lemma span_value_quote (s : string) :
  mem dquote s = true ->
  exists v r, span_value s = (v, String dquote r).
Proof.
  induction s as [|c s IH]; simpl; [discriminate|].
  destruct (Ascii.eqb_spec c dquote) as [->|Hc]; simpl.
  - intros _. now exists "", s.
  - intros H. destruct (IH H) as (v & r & E). rewrite E. now exists (String c v), r.
Qed.

Lemma mem_app (c : ascii) (a b : string) :
  mem c (a ++ b) = mem c a || mem c b.
Proof.
  induction a as [|x a IH]; simpl; [reflexivity|].
  now rewrite IH, orb_assoc.
Qed.

Lemma attr_opening (key v : string) : attr key v = opening key ++ v ++ q.
Proof. unfold attr, opening. rewrite !app_assoc. reflexivity. Qed.

Lemma match_here_sound (key s v : string) :
  match_here key s = Some v -> exists post, s = attr key v ++ post.
Proof.
  unfold match_here.
  destruct (strip_prefix (opening key) s) as [rest|] eqn:E; [|discriminate].
  destruct (span_value rest) as [v' rest'] eqn:Es.
  destruct rest' as [|c r]; [discriminate|].
  destruct (Ascii.eqb_spec c dquote) as [->|]; [|discriminate].
  intros H; inversion H; subst v'. exists r.
  rewrite (strip_prefix_sound _ _ _ E), (span_value_sound _ _ _ Es).
  rewrite attr_opening, !app_assoc. reflexivity.
Qed.

(** A match of the pattern is an attribute of the line. *)
Lemma search_sound (key s v : string) :
  search key s = Some v -> exists pre post, s = pre ++ attr key v ++ post.
Proof.
  induction s as [|c s IH]; rewrite search_unfold.
  - destruct (match_here key "") eqn:E; [|discriminate].
    intros H; inversion H; subst.
    destruct (match_here_sound _ _ _ E) as [post Hp]. now exists "", post.
  - destruct (match_here key (String c s)) eqn:E.
    + intros H; inversion H; subst.
      destruct (match_here_sound _ _ _ E) as [post Hp]. now exists "", post.
    + intros H. destruct (IH H) as (pre & post & ->).
      now exists (String c pre), post.
Qed.

Lemma match_here_attr (key v post : string) :
  exists v', match_here key (attr key v ++ post) = Some v'.
Proof.
  unfold match_here.
  rewrite attr_opening, !app_assoc, strip_prefix_app.
  destruct (span_value_quote (v ++ q ++ post)) as (v' & r & E).
  - rewrite !mem_app. unfold q. simpl. now destruct (mem dquote v).
  - rewrite E, Ascii.eqb_refl. now exists v'.
Qed.

(** An attribute of the line is matched by the pattern. *)
Lemma search_complete (key s : string) :
  has_attr key s -> search key s <> None.
Proof.
  intros (pre & v & post & ->).
  induction pre as [|c pre IH]; rewrite search_unfold.
  - cbn [append]. destruct (match_here_attr key v post) as [v' ->]. discriminate.
  - destruct (match_here key _); [discriminate | exact IH].
Qed.

Lemma search_none_iff (key s : string) :
  search key s = None <-> ~ has_attr key s.
Proof.
  split.
  - intros H Ha. now apply (search_complete key s).
  - intros H. destruct (search key s) as [v|] eqn:E; [|reflexivity].
    destruct H. destruct (search_sound _ _ _ E) as (pre & post & ->).
    now exists pre, v, post.
Qed.

(** *** The leftmost match *)

Lemma strip_prefix_short (p x z : string) :
  String.length p <= String.length x ->
  startswith x p = false -> strip_prefix p (x ++ z) = None.
Proof.
  unfold startswith. revert x.
  induction p as [|a p IH]; intros x Hlen H; simpl in *; [discriminate|].
  destruct x as [|b x]; simpl in *; [lia|].
  destruct (Ascii.eqb a b); [|reflexivity].
  apply IH; [lia | exact H].
Qed.

Lemma match_here_empty (key post : string) :
  match_here key (attr key "" ++ post) = Some "".
Proof.
  unfold match_here.
  rewrite attr_opening, !app_assoc, strip_prefix_app.
  cbn. reflexivity.
Qed.

(** When no earlier place of the line starts like the attribute, the
    pattern captures the empty value of an empty attribute. *)
Lemma search_first_empty (key pre post : string) :
  first_opening key pre = true ->
  search key (pre ++ attr key "" ++ post) = Some "".
Proof.
  unfold first_opening. rewrite negb_true_iff.
  induction pre as [|c pre IH]; intros H; rewrite search_unfold.
  - cbn [append]. now rewrite match_here_empty.
  - cbn [append is_substring] in H. apply orb_false_elim in H as [H1 H2].
    assert (E : String c pre ++ attr key "" ++ post
                = (String c (pre ++ key ++ "=")) ++ q ++ q ++ post).
    { unfold attr. cbn [append]. rewrite !app_assoc. reflexivity. }
    unfold match_here. rewrite E, strip_prefix_short; [| |exact H1].
    + rewrite <- E. cbn [append]. apply IH. exact H2.
    + unfold opening. cbn [String.length]. rewrite !length_app. simpl. lia.
Qed.

(** *** Splitting at commas *)

Lemma split_no_sep (sep : ascii) (s : string) :
  mem sep s = false -> split sep s = [s].
Proof.
  induction s as [|c s IH]; simpl; [reflexivity|].
  intros H. apply orb_false_elim in H as [Hc Hs].
  now rewrite Hc, (IH Hs).
Qed.

Lemma split_last_piece (sep : ascii) (pre post : string) :
  mem sep post = false ->
  exists h t, split sep (pre ++ String sep post) = h :: t
              /\ t <> [] /\ last t "" = post.
Proof.
  intros Hpost. induction pre as [|c pre (h & t & E & Hne & Hlast)]; simpl.
  - rewrite Ascii.eqb_refl, (split_no_sep _ _ Hpost).
    exists "", [post]. repeat split. discriminate.
  - rewrite E. destruct (Ascii.eqb c sep).
    + exists "", (h :: t). repeat split; [discriminate|].
      destruct t; [contradiction | exact Hlast].
    + now exists (String c h), t.
Qed.

(** The last piece of a line split at commas is the text after the last
    comma. *)
Lemma last_split (sep : ascii) (pre post : string) :
  mem sep post = false ->
  last_item (split sep (pre ++ String sep post)) = post.
Proof.
  intros H. destruct (split_last_piece sep pre post H) as (h & t & -> & Hne & <-).
  unfold last_item. destruct t; [contradiction | reflexivity].
Qed.

End ReFacts.

(* ================================================================= *)
(** ** The properties of the specification *)

Import PyStr Text.

(** The example of the specification: two channels, the entry without a
    URL dropped. *)
Example parse_example_playlist :
  Parser._parse_playlist example_playlist = [Samples.news1; Samples.game].
Proof. vm_compute. reflexivity. Qed.

Example group_example_playlist :
  Samples.example_groups
  = [("News", [Samples.news1]); ("Sports", [Samples.game])].
Proof. vm_compute. reflexivity. Qed.

(** C1. A playlist made of the header line and N well-formed pairs of a
    metadata line and a URL line parses to exactly N channels, the k-th
    channel built from the k-th pair: the output keeps the order of the
    input. It holds with and without a line feed after the last URL. *)
Theorem parse_well_formed_entries
  (trailing : bool) (pairs : list (string * string)) :
  forallb well_formed pairs = true ->
  Parser._parse_playlist (playlist trailing pairs) = map channel_of pairs
  /\ length (Parser._parse_playlist (playlist trailing pairs)) = length pairs.
Proof.
  intros Hwf.
  assert (E : Parser._parse_playlist (playlist trailing pairs)
              = map channel_of pairs).
  { unfold Parser._parse_playlist, playlist.
    rewrite StrFacts.readlines_line by reflexivity.
    cbn [tl]. now rewrite (ParserFacts.run_entries trailing pairs Hwf). }
  split; [exact E|]. rewrite E. apply length_map.
Qed.

Lemma parse_well_formed_entries_witness :
  forallb well_formed Samples.pairs = true
  /\ Parser._parse_playlist (playlist false Samples.pairs)
     = map channel_of Samples.pairs
  /\ length (Parser._parse_playlist (playlist false Samples.pairs)) = 2.
Proof.
  split; [reflexivity|].
  apply (parse_well_formed_entries false Samples.pairs). reflexivity.
Defined.

(** C2. A metadata line followed only by blank lines and comments up to
    the next metadata line, or up to the end of the input, contributes no
    channel: the parse of the text is the parse of the text without that
    line and the lines after it. The next metadata line overwrites the
    pending one; at the end of the input the pending one is dropped,
    whether the last line of the input ends with a line feed
    ([trailing]) or not. *)
Theorem orphan_extinf_contributes_nothing
  (trailing : bool) (pre orphan : string) (gap : list string)
  (post : string) :
  one_line orphan = true -> forallb one_line gap = true ->
  is_extinf orphan = true -> forallb is_inert gap = true ->
  (if trailing
   then match PyStr.readlines post with
        | [] => true
        | next :: _ => is_extinf next
        end
   else String.eqb post "") = true ->
  Parser._parse_playlist
    (pre ++ nl ++ lines_text trailing (orphan :: gap) ++ post)
  = Parser._parse_playlist (pre ++ nl ++ post).
Proof.
  intros Lo Lgap Ho Hgap Hpost.
  assert (Lall : forallb one_line (orphan :: gap) = true)
    by (cbn [forallb]; now rewrite Lo, Lgap).
  rewrite !ParserFacts.parse_after.
  set (st := Parser.run Parser.init (tl (readlines (pre ++ nl)))).
  destruct trailing.
  - rewrite ParserFacts.lines_text_true.
    rewrite (StrFacts.readlines_unlines _ post Lall).
    now apply ParserFacts.orphan_block.
  - apply String.eqb_eq in Hpost. subst post.
    rewrite StrFacts.app_nil_r, (ParserFacts.run_lines_text _ st Lall).
    rewrite <- (StrFacts.app_nil_r (unlines (orphan :: gap))).
    rewrite (StrFacts.readlines_unlines _ "" Lall).
    now apply ParserFacts.orphan_block.
Qed.

Lemma orphan_extinf_contributes_nothing_witness :
  Parser._parse_playlist
    ("#EXTM3U" ++ nl ++ lines_text false ["#EXTINF:-1,Orphan"] ++ "")
  = Parser._parse_playlist ("#EXTM3U" ++ nl ++ "").
Proof.
  apply (orphan_extinf_contributes_nothing false
           "#EXTM3U" "#EXTINF:-1,Orphan" [] ""); reflexivity.
Defined.

(** The two ends of C2 on texts: an unterminated last metadata line, and
    a metadata line overwritten by the next one. *)
Example orphan_at_end_of_input :
  Parser._parse_playlist ("#EXTM3U" ++ nl ++ "#EXTINF:-1,Orphan") = []
  /\ Parser._parse_playlist
       ("#EXTM3U" ++ nl ++ "#EXTINF:-1,Orphan" ++ nl ++ "# note" ++ nl
          ++ "#EXTINF:-1,Game" ++ nl ++ "http://x/2")
     = [mkChannel "Game" "Ungrouped" "http://x/2" None None None None None].
Proof. split; vm_compute; reflexivity. Qed.

(** C3, as the code has it. The search result is the in-order filter of
    the channel list by the test that the score of the trimmed, lowercased
    query against the lowercased channel name exceeds 80, when the
    trimmed query is not empty; it is the empty list when it is. The
    channels are never reordered. *)
Theorem search_is_stable_filter
  (partial_ratio : string -> string -> Z)
  (chans : list IPTVChannel) (query : string) :
  Browser.search_channels partial_ratio chans query
  = if nonempty (lower (strip query))
    then filter
           (fun c => (80 <? partial_ratio (lower (strip query))
                                          (lower (name c)))%Z)
           chans
    else [].
Proof.
  apply SearchFacts.search_channels_filter.
Qed.

(** C3 as stated fails: with the query of one space the result is empty,
    while the filter by the score of the lowercased query keeps a channel
    whose name is one space, for any scorer that rates equal strings
    100. *)
Lemma search_is_not_filter_by_lowercased_query :
  exists (partial_ratio : string -> string -> Z)
         (chans : list IPTVChannel) (query : string),
    (forall s, partial_ratio s s = 100%Z)
    /\ chans = Parser._parse_playlist Samples.blank_name_playlist
    /\ Browser.search_channels partial_ratio chans query
       <> filter
            (fun c => (80 <? partial_ratio (lower query) (lower (name c)))%Z)
            chans.
Proof.
  exists substring_score, [Samples.blank_channel], " ".
  split; [exact CaseFacts.substring_score_refl|].
  split; [vm_compute; reflexivity|].
  vm_compute. discriminate.
Qed.

(** C7. A query that is empty or made of white space only finds nothing,
    whatever the channel list and the scorer. *)
Theorem search_blank_query
  (partial_ratio : string -> string -> Z)
  (chans : list IPTVChannel) (query : string) :
  all_space query = true ->
  Browser.search_channels partial_ratio chans query = [].
Proof.
  intros H. unfold Browser.search_channels.
  now rewrite (StrFacts.strip_all_space _ H).
Qed.

Lemma search_blank_query_witness :
  Browser.search_channels substring_score
    [Samples.news1; Samples.game; Samples.blank_channel]
    (String " " (String "009" (String " " EmptyString))) = [].
Proof.
  apply (search_blank_query substring_score
           [Samples.news1; Samples.game; Samples.blank_channel]).
  reflexivity.
Defined.



(** That equal strings score 100 does not reach a name with white space
    at its ends: the query is trimmed, the name is not, and a scorer may
    rate the two below the threshold. *)
Lemma padded_name_may_be_missed :
  exists (partial_ratio : string -> string -> Z)
         (chans : list IPTVChannel) (c : IPTVChannel),
    (forall s, partial_ratio s s = 100%Z)
    /\ In c chans /\ nonempty (strip (name c)) = true
    /\ ~ In c (Browser.search_channels partial_ratio chans (lower (name c))).
Proof.
  exists equality_score,
    [mkChannel " Sky " "Ungrouped" "http://x/6" None None None None None],
    (mkChannel " Sky " "Ungrouped" "http://x/6" None None None None None).
  split; [intros s0; unfold equality_score; now rewrite String.eqb_refl|].
  split; [left; reflexivity|]. split; [reflexivity|].
  vm_compute. tauto.
Qed.


(** C4. When the URL is valid and the server answers with a body that,
    trimmed, does not start with the header token, the fetch ends with
    the parsing error, and the stored channel list and the current filter
    are what they were before the call. *)
Theorem fetch_rejects_missing_header
  (urlparse : string -> option (string * string))
  (http_get : string -> Browser.fetched)
  (self : Browser.t) (url : string) (r : Browser.response) :
  Browser.validate_url urlparse url = true ->
  http_get url = Browser.Got r ->
  Browser.raises_for_status r = false ->
  startswith (strip (Browser.text r)) "#EXTM3U" = false ->
  snd (Browser.fetch_playlist urlparse http_get self url)
    = Browser.Raise Browser.PlaylistParsingError
  /\ Browser.channels (fst (Browser.fetch_playlist urlparse http_get self url))
     = Browser.channels self
  /\ Browser.current_filter
       (fst (Browser.fetch_playlist urlparse http_get self url))
     = Browser.current_filter self.
Proof.
  intros Hurl Hget Hstatus Hhead. unfold Browser.fetch_playlist.
  rewrite Hurl, Hget, Hstatus, Hhead. cbn. auto.
Qed.

Lemma fetch_rejects_missing_header_witness :
  snd (Browser.fetch_playlist Samples.urlparse_any Samples.http_get_page
         Samples.stored "http://example.org/list.m3u")
    = Browser.Raise Browser.PlaylistParsingError
  /\ Browser.channels
       (fst (Browser.fetch_playlist Samples.urlparse_any Samples.http_get_page
               Samples.stored "http://example.org/list.m3u"))
     = [Samples.news1; Samples.game]
  /\ Browser.current_filter
       (fst (Browser.fetch_playlist Samples.urlparse_any Samples.http_get_page
               Samples.stored "http://example.org/list.m3u"))
     = None.
Proof.
  apply (fetch_rejects_missing_header Samples.urlparse_any
           Samples.http_get_page Samples.stored "http://example.org/list.m3u"
           (Browser.mkResponse 200 "  <html>not a playlist</html>"));
    reflexivity.
Defined.

(** The failed fetch has already stored the new URL. *)
Lemma fetch_rejected_keeps_new_url :
  Browser.playlist_url
    (fst (Browser.fetch_playlist Samples.urlparse_any Samples.http_get_page
            Samples.stored "http://example.org/list.m3u"))
  = Some "http://example.org/list.m3u".
Proof. reflexivity. Qed.

(** C8. A metadata line without a group attribute gives a channel whose
    group is the text Ungrouped. *)
Theorem group_defaults_to_ungrouped (extinf_line line : string) :
  ~ has_attr "group-title" extinf_line ->
  group (Parser.make_channel extinf_line line) = "Ungrouped".
Proof.
  intros H. apply ReFacts.search_none_iff in H.
  unfold Parser.make_channel, Parser.patterns. cbn [group Parser.key_of].
  now rewrite H.
Qed.

Lemma group_defaults_to_ungrouped_witness :
  group (Parser.make_channel
           ("#EXTINF:-1 " ++ attr "tvg-name" "News1" ++ ",News1")
           "http://x/1")
  = "Ungrouped".
Proof.
  apply (group_defaults_to_ungrouped
           ("#EXTINF:-1 " ++ attr "tvg-name" "News1" ++ ",News1")).
  apply ReFacts.search_none_iff. reflexivity.
Defined.

(** C9. A metadata line without a name attribute gives a channel whose
    name is the text after the last comma of the line, trimmed. *)
Theorem name_defaults_to_text_after_last_comma
  (extinf_line line pre post : string) :
  ~ has_attr "tvg-name" extinf_line ->
  extinf_line = (pre ++ "," ++ post)%string ->
  mem comma post = false ->
  name (Parser.make_channel extinf_line line) = strip post.
Proof.
  intros H -> Hpost. apply ReFacts.search_none_iff in H.
  unfold Parser.make_channel, Parser.patterns. cbn [name Parser.key_of].
  rewrite H. unfold Parser.after_last_comma.
  change (pre ++ "," ++ post)%string with (pre ++ String comma post)%string.
  now rewrite (ReFacts.last_split comma pre post Hpost).
Qed.

Lemma name_defaults_to_text_after_last_comma_witness :
  name (Parser.make_channel
          ("#EXTINF:-1 " ++ attr "group-title" "Sports, live" ++ ", Game ")
          "http://x/2")
  = "Game".
Proof.
  apply (name_defaults_to_text_after_last_comma
           ("#EXTINF:-1 " ++ attr "group-title" "Sports, live" ++ ", Game ")
           "http://x/2"
           ("#EXTINF:-1 " ++ attr "group-title" "Sports, live") " Game ").
  - apply ReFacts.search_none_iff. reflexivity.
  - reflexivity.
  - reflexivity.
Defined.

(** C10, as the code has it. When the empty group attribute is the first
    place of the line where the group key, an equals sign and a double
    quote stand, the channel's group is the empty text and not the
    fallback; likewise an empty name attribute that comes first gives
    the empty name and not the text after the last comma. *)
Theorem empty_attribute_is_kept
  (pre1 post1 pre2 post2 line : string) :
  first_opening "group-title" pre1 = true ->
  first_opening "tvg-name" pre2 = true ->
  group (Parser.make_channel (pre1 ++ attr "group-title" "" ++ post1) line)
    = ""
  /\ name (Parser.make_channel (pre2 ++ attr "tvg-name" "" ++ post2) line)
     = "".
Proof.
  intros H1 H2.
  unfold Parser.make_channel, Parser.patterns. cbn [group name Parser.key_of].
  now rewrite (ReFacts.search_first_empty _ _ _ H1),
    (ReFacts.search_first_empty _ _ _ H2).
Qed.

Lemma empty_attribute_is_kept_witness :
  group (Parser.make_channel
           ("#EXTINF:-1 " ++ attr "group-title" "" ++ ",Game") "http://x/2")
    = ""
  /\ name (Parser.make_channel
             ("#EXTINF:-1 " ++ attr "tvg-name" "" ++ ",Game") "http://x/2")
     = "".
Proof.
  apply (empty_attribute_is_kept "#EXTINF:-1 " ",Game" "#EXTINF:-1 " ",Game");
    reflexivity.
Defined.

(** C10 as stated fails: a line that carries the empty group attribute
    after another group attribute gives the group of the first one. *)
Lemma later_empty_attribute_is_ignored :
  exists pre post line : string,
    pre = Samples.two_groups_pre /\ post = Samples.two_groups_post
    /\ group (Parser.make_channel (pre ++ attr "group-title" "" ++ post) line)
       = "A"
    /\ group (Parser.make_channel (pre ++ attr "group-title" "" ++ post) line)
       <> "".
Proof.
  exists Samples.two_groups_pre, Samples.two_groups_post, "http://x/1".
  repeat split. vm_compute. discriminate.
Qed.

(** C5 fails on the group screen: the answer 0 is outside 1..2, and yet
    it opens the channels of the last group, because the index -1 counts
    from the end of the list of group names. *)
Lemma group_zero_opens_last_group :
  Shell.react Samples.host_with_vlc
    [Shell.GroupScreen Samples.example_groups] "0"
  = ([Shell.ChannelScreen [Samples.game];
      Shell.GroupScreen Samples.example_groups], []).
Proof. vm_compute. reflexivity. Qed.

(* ================================================================= *)
(** ** The screens and answers that are no selection *)

Module ShellFacts.
Import Shell.

Local Open Scope Z_scope.

(** X17. On the channel screen an answer that is no number, or a number
    outside 1..length, is reported; the screen stays and nothing is
    played. *)
Lemma channel_screen_rejects
  (h : host) (chans : list IPTVChannel) (outer : position) (choice : string) :
  lower choice <> "b"%string ->
  match int choice with
  | None => True
  | Some n => n < 1 \/ Z.of_nat (length chans) < n
  end ->
  exists msg,
    react h (ChannelScreen chans :: outer) choice
    = (ChannelScreen chans :: outer, [Print msg]).
Proof.
  intros Hb Hn. unfold react, browse_channels_iter.
  apply String.eqb_neq in Hb. rewrite Hb.
  destruct (int choice) as [n|]; [|now eexists].
  assert (E : (0 <=? n - 1) && (n - 1 <? Z.of_nat (length chans)) = false).
  { apply andb_false_iff. destruct Hn; [left | right]; lia. }
  rewrite E. now eexists.
Qed.

(** X18. On the group screen an answer that is no number, or a number above
    the length or at most minus the length, is reported and the screen
    stays. *)
Lemma group_screen_rejects
  (h : host) (groups : groups_t) (outer : position) (choice : string) :
  lower choice <> "b"%string ->
  match int choice with
  | None => True
  | Some n => Z.of_nat (length groups) < n \/ n <= - Z.of_nat (length groups)
  end ->
  react h (GroupScreen groups :: outer) choice
  = (GroupScreen groups :: outer, [Print "Invalid group number"]).
Proof.
  intros Hb Hn. unfold react, browse_groups_iter.
  apply String.eqb_neq in Hb. rewrite Hb.
  destruct (int choice) as [n|]; [|reflexivity].
  unfold index. rewrite length_map.
  destruct (n - 1 <? 0) eqn:Eneg.
  - assert (E : (0 <=? n - 1 + Z.of_nat (length groups))
                && (n - 1 + Z.of_nat (length groups)
                    <? Z.of_nat (length groups)) = false).
    { apply andb_false_iff. destruct Hn; [right | left]; lia. }
    now rewrite E.
  - assert (E : (0 <=? n - 1) && (n - 1 <? Z.of_nat (length groups)) = false).
    { apply andb_false_iff. right. apply Z.ltb_ge. apply Z.ltb_ge in Eneg.
      destruct Hn; lia. }
    now rewrite E.
Qed.

Lemma lookup_key (groups : groups_t) (k : string) :
  In k (map fst groups) -> lookup groups k <> None.
Proof.
  induction groups as [|[k0 cs] rest IH]; simpl; [tauto|].
  intros [-> | H].
  - now rewrite String.eqb_refl.
  - destruct (String.eqb k0 k); [discriminate | auto].
Qed.

(** X19. On the group screen every number from 1 - length to 0 opens a group,
    though it is outside 1..length: the index counts from the end. *)
Lemma group_screen_accepts_nonpositive
  (h : host) (groups : groups_t) (outer : position) (choice : string) (n : Z) :
  lower choice <> "b"%string ->
  int choice = Some n ->
  1 - Z.of_nat (length groups) <= n <= 0 ->
  exists chans,
    react h (GroupScreen groups :: outer) choice
    = (ChannelScreen chans :: GroupScreen groups :: outer, []).
Proof.
  intros Hb Hint Hn. unfold react, browse_groups_iter.
  apply String.eqb_neq in Hb. rewrite Hb, Hint.
  unfold index. rewrite length_map.
  assert (E1 : (n - 1 <? 0) = true) by (apply Z.ltb_lt; lia).
  assert (E2 : (0 <=? n - 1 + Z.of_nat (length groups))
               && (n - 1 + Z.of_nat (length groups)
                   <? Z.of_nat (length groups)) = true).
  { apply andb_true_iff. split; [apply Z.leb_le | apply Z.ltb_lt]; lia. }
  rewrite E1, E2.
  destruct (nth_error (map fst groups)
              (Z.to_nat (n - 1 + Z.of_nat (length groups)))) as [k|] eqn:Ek.
  - destruct (lookup groups k) as [chans|] eqn:El.
    + now exists chans.
    + apply nth_error_In in Ek. now destruct (lookup_key groups k Ek).
  - apply nth_error_None in Ek. rewrite length_map in Ek. lia.
Qed.

End ShellFacts.

(* ================================================================= *)
(** ** More on the parser: what the text may vary in *)

Module ParserMore.
Import Parser StrFacts ParserFacts Vocab.

Local Open Scope string_scope.
Local Arguments Ascii.eqb : simpl never.

Lemma rstrip_idem (s : string) : rstrip (rstrip s) = rstrip s.
Proof.
  induction s as [|c s IH]; simpl; [reflexivity|].
  destruct (rstrip s) as [|d r] eqn:E.
  - destruct (isspace c) eqn:Hc; simpl; [reflexivity | now rewrite Hc].
  - cbn [rstrip] in *. now rewrite IH.
Qed.

Lemma rstrip_head (c : ascii) (s : string) :
  isspace c = false -> exists r, rstrip (String c s) = String c r.
Proof.
  intros Hc. simpl. destruct (rstrip s); rewrite ?Hc; now eexists.
Qed.

Lemma lstrip_head (s : string) :
  lstrip s = "" \/ exists c r, lstrip s = String c r /\ isspace c = false.
Proof.
  induction s as [|c s IH]; simpl; [now left|].
  destruct (isspace c) eqn:Hc; [exact IH|]. right. now exists c, s.
Qed.

Lemma strip_idem (s : string) : strip (strip s) = strip s.
Proof.
  unfold strip. destruct (lstrip_head s) as [-> | (c & r & -> & Hc)];
    [reflexivity|].
  destruct (rstrip_head c r Hc) as [r' E]. rewrite E.
  cbn [lstrip]. rewrite Hc, <- E. apply rstrip_idem.
Qed.

Lemma lstrip_space_app (w s : string) :
  all_space w = true -> lstrip (w ++ s) = lstrip s.
Proof.
  induction w as [|c w IH]; simpl; [reflexivity|].
  intros H. apply andb_prop in H as [Hc Hw]. now rewrite Hc, IH.
Qed.

(** A URL line when no metadata line is pending changes nothing. *)
Lemma step_url_idle (st : loop_state) (raw : string) :
  pending st = None -> is_url raw = true -> step st raw = st.
Proof.
  unfold is_url, step. intros Hp H.
  apply andb_prop in H as [H1 H2]. apply negb_true_iff in H2.
  now rewrite H1, (not_comment_not_extinf _ H2), Hp.
Qed.

(** X1. The first line is never read: any two texts that differ in their
    first line only parse to the same channels. *)
Theorem header_line_is_never_read (h1 h2 rest : string) :
  one_line h1 = true -> one_line h2 = true ->
  _parse_playlist (h1 ++ nl ++ rest) = _parse_playlist (h2 ++ nl ++ rest).
Proof.
  intros H1 H2. unfold _parse_playlist.
  now rewrite !readlines_line by now apply one_line_mem.
Qed.

Lemma header_line_is_never_read_witness :
  _parse_playlist ("#EXTINF:-1,Lost" ++ nl ++ "http://x/1" ++ nl)
  = _parse_playlist ("#EXTM3U" ++ nl ++ "http://x/1" ++ nl).
Proof.
  apply (header_line_is_never_read "#EXTINF:-1,Lost" "#EXTM3U"
           ("http://x/1" ++ nl)); reflexivity.
Defined.

(** X2. Blank lines and comments that are no metadata lines can be added or
    removed anywhere after the first line without changing the parse,
    also between a metadata line and its URL. *)
Theorem inert_lines_change_nothing
  (pre : string) (gap : list string) (post : string) :
  forallb one_line gap = true -> forallb is_inert gap = true ->
  _parse_playlist (pre ++ nl ++ unlines gap ++ post)
  = _parse_playlist (pre ++ nl ++ post).
Proof.
  intros Lgap Hgap. rewrite !parse_after.
  rewrite (readlines_unlines gap post Lgap), run_app.
  rewrite (run_inert _ (map (fun l => l ++ nl) gap)); [reflexivity|].
  rewrite forallb_forall in *. intros l Hl.
  apply in_map_iff in Hl as (l0 & <- & Hl0).
  rewrite is_inert_line. now apply Hgap.
Qed.

Lemma inert_lines_change_nothing_witness :
  _parse_playlist
    ("#EXTM3U" ++ nl ++ "#EXTINF:-1,Game" ++ nl
       ++ unlines ["#EXTVLCOPT:network-caching=1000"; "   "] ++ "http://x/2")
  = _parse_playlist
      ("#EXTM3U" ++ nl ++ "#EXTINF:-1,Game" ++ nl ++ "http://x/2").
Proof.
  rewrite <- !app_assoc.
  apply (inert_lines_change_nothing ("#EXTM3U" ++ nl ++ "#EXTINF:-1,Game")
           ["#EXTVLCOPT:network-caching=1000"; "   "] "http://x/2");
    reflexivity.
Defined.

(** X3. Only the trimmed text of a line matters: a line can be replaced by
    any line with the same trimmed text (padding, a carriage return before
    the line feed) without changing the parse. *)
Theorem only_trimmed_line_matters (pre l l' post : string) :
  one_line l = true -> one_line l' = true -> strip l = strip l' ->
  _parse_playlist (pre ++ nl ++ l ++ nl ++ post)
  = _parse_playlist (pre ++ nl ++ l' ++ nl ++ post).
Proof.
  intros Hl Hl' E. rewrite !parse_after.
  rewrite !readlines_line by now apply one_line_mem.
  rewrite !run_cons. f_equal. f_equal.
  apply step_ext. now rewrite !strip_line.
Qed.

Lemma only_trimmed_line_matters_witness :
  _parse_playlist
    ("#EXTM3U" ++ nl ++ "#EXTINF:-1,Game" ++ nl
       ++ ("  http://x/2 " ++ MoreSamples.cr) ++ nl ++ "")
  = _parse_playlist
      ("#EXTM3U" ++ nl ++ "#EXTINF:-1,Game" ++ nl ++ "http://x/2" ++ nl ++ "").
Proof.
  rewrite <- !(app_assoc "#EXTM3U" nl).
  rewrite <- !(app_assoc ("#EXTM3U" ++ nl) "#EXTINF:-1,Game").
  apply (only_trimmed_line_matters (("#EXTM3U" ++ nl) ++ "#EXTINF:-1,Game")
           ("  http://x/2 " ++ MoreSamples.cr) "http://x/2" "");
    reflexivity.
Defined.

(** X4. A URL line that follows a URL line is ignored: a metadata line
    serves one URL. *)
Theorem second_url_is_ignored (pre u1 u2 post : string) :
  one_line u1 = true -> one_line u2 = true ->
  is_url u1 = true -> is_url u2 = true ->
  _parse_playlist (pre ++ nl ++ u1 ++ nl ++ u2 ++ nl ++ post)
  = _parse_playlist (pre ++ nl ++ u1 ++ nl ++ post).
Proof.
  intros L1 L2 H1 H2. rewrite !parse_after.
  rewrite !readlines_line by now apply one_line_mem.
  rewrite !run_cons. f_equal. f_equal.
  set (st := run init (tl (readlines (pre ++ nl)))).
  assert (H1' : is_url (u1 ++ nl) = true) by now rewrite is_url_line.
  assert (H2' : is_url (u2 ++ nl) = true) by now rewrite is_url_line.
  destruct (pending st) as [e|] eqn:Hp.
  - unfold pending in Hp.
    destruct (extinf_line st) as [e0|] eqn:He; [|discriminate].
    destruct (nonempty e0) eqn:Hne; [|discriminate].
    rewrite (step_url st _ e0 He Hne H1').
    now apply step_url_idle.
  - rewrite (step_url_idle st _ Hp H1'). now apply step_url_idle.
Qed.

Lemma second_url_is_ignored_witness :
  _parse_playlist
    ("#EXTM3U" ++ nl ++ "#EXTINF:-1,Game" ++ nl
       ++ "http://x/2" ++ nl ++ "http://x/backup" ++ nl ++ "")
  = _parse_playlist
      ("#EXTM3U" ++ nl ++ "#EXTINF:-1,Game" ++ nl ++ "http://x/2" ++ nl ++ "").
Proof.
  rewrite <- !(app_assoc "#EXTM3U" nl).
  rewrite <- !(app_assoc ("#EXTM3U" ++ nl) "#EXTINF:-1,Game").
  apply (second_url_is_ignored (("#EXTM3U" ++ nl) ++ "#EXTINF:-1,Game")
           "http://x/2" "http://x/backup" ""); reflexivity.
Defined.

End ParserMore.

(* ================================================================= *)
(** ** More on the parser: what every parse result satisfies *)

Module ParserInv.
Import Parser StrFacts ParserFacts ParserMore Vocab.

Local Open Scope string_scope.
Local Arguments Ascii.eqb : simpl never.

Section Origin.

(** The lines of the text at hand. *)
Variable all : list string.

Lemma step_from_lines (st : loop_state) (raw : string) :
  In raw all -> from_lines all st -> from_lines all (step st raw).
Proof.
  intros Hraw [Hc Hp].
  destruct (is_extinf raw) eqn:Hm.
  - rewrite (step_meta st raw Hm). split; [exact Hc|].
    cbn [pending extinf_line]. intros e He.
    rewrite (extinf_nonempty _ Hm) in He. inversion He; subst e.
    now exists raw.
  - destruct (is_url raw) eqn:Hu.
    + destruct (pending st) as [e|] eqn:Epend.
      * destruct (Hp e eq_refl) as (m & Hin & Hext & ->).
        unfold pending in Epend.
        destruct (extinf_line st) as [e0|] eqn:He; [|discriminate].
        destruct (nonempty e0) eqn:Hne; [|discriminate].
        inversion Epend; subst e0.
        rewrite (step_url st raw _ He Hne Hu). split.
        -- cbn [channels]. intros c Hin'.
           apply in_app_or in Hin' as [Hin' | [<- | []]]; [now apply Hc|].
           now exists m, raw.
        -- cbn [pending extinf_line]. discriminate.
      * rewrite (step_url_idle st raw Epend Hu).
        split; [exact Hc | rewrite Epend; discriminate].
    + rewrite step_inert; [now split|].
      unfold is_inert, is_url in *. rewrite Hm.
      destruct (nonempty (strip raw)); [|reflexivity].
      cbn in *. apply negb_false_iff in Hu. now rewrite Hu.
Qed.

Lemma run_from_lines (ls : list string) :
  incl ls all -> forall st, from_lines all st -> from_lines all (run st ls).
Proof.
  induction ls as [|l ls IH]; intros Hincl st Hst; [exact Hst|].
  rewrite run_cons. apply IH.
  - intros x Hx. apply Hincl. now right.
  - apply step_from_lines; [apply Hincl; now left | exact Hst].
Qed.

End Origin.

Lemma parse_from_lines (content : string) :
  from_lines (body_lines content) (run init (body_lines content)).
Proof.
  apply run_from_lines; [apply incl_refl|].
  split; [intros c [] | discriminate].
Qed.

(** X5. Every channel of a parse result is built from a metadata line and a
    URL line that both stand in the text after the first line: the
    parser invents no channel. *)
Theorem parsed_channels_come_from_lines (content : string) (c : IPTVChannel) :
  In c (_parse_playlist content) ->
  exists m u,
    In m (body_lines content) /\ In u (body_lines content)
    /\ is_extinf m = true /\ is_url u = true /\ c = channel_of (m, u).
Proof. intros H. now apply (parse_from_lines content). Qed.

Lemma parsed_channels_come_from_lines_witness :
  exists m u,
    In m (body_lines example_playlist) /\ In u (body_lines example_playlist)
    /\ is_extinf m = true /\ is_url u = true
    /\ Samples.game = channel_of (m, u).
Proof.
  apply (parsed_channels_come_from_lines example_playlist Samples.game).
  vm_compute. right. left. reflexivity.
Defined.

(** X6. Every channel of a parse result has a URL that is not empty, is no
    comment and carries no surrounding white space; its category is
    never set. *)
Theorem parsed_urls_are_good (content : string) (c : IPTVChannel) :
  In c (_parse_playlist content) ->
  good_url (url c) = true /\ category c = None.
Proof.
  intros H.
  destruct (proj1 (parse_from_lines content) c H)
    as (m & u & _ & _ & _ & Hu & ->).
  split; [|reflexivity].
  unfold good_url, channel_of, make_channel. cbn [url snd].
  unfold is_url in Hu. rewrite Hu, strip_idem. apply String.eqb_refl.
Qed.

Lemma parsed_urls_are_good_witness :
  good_url (url Samples.news1) = true /\ category Samples.news1 = None.
Proof.
  apply (parsed_urls_are_good example_playlist Samples.news1).
  vm_compute. left. reflexivity.
Defined.

(** *** Counting *)

Lemma step_count_extinf (st : loop_state) (raw : string) :
  length (channels (step st raw)) + pending_count (step st raw)
  <= length (channels st) + pending_count st
     + (if is_extinf raw then 1 else 0).
Proof.
  destruct (is_extinf raw) eqn:Hm.
  - rewrite (step_meta st raw Hm). unfold pending_count. cbn [channels].
    destruct (pending _); destruct (pending st); lia.
  - destruct (is_url raw) eqn:Hu.
    + destruct (pending st) as [e|] eqn:Epend.
      * unfold pending_count. rewrite Epend. unfold pending in Epend.
        destruct (extinf_line st) as [e0|] eqn:He; [|discriminate].
        destruct (nonempty e0) eqn:Hne; [|discriminate].
        rewrite (step_url st raw _ He Hne Hu).
        cbn [channels pending extinf_line]. rewrite List.length_app. simpl. lia.
      * rewrite (step_url_idle st raw Epend Hu). lia.
    + rewrite step_inert; [lia|].
      unfold is_inert, is_url in *. rewrite Hm.
      destruct (nonempty (strip raw)); [|reflexivity].
      cbn in *. apply negb_false_iff in Hu. now rewrite Hu.
Qed.

Lemma step_count_url (st : loop_state) (raw : string) :
  length (channels (step st raw))
  <= length (channels st) + (if is_url raw then 1 else 0).
Proof.
  unfold step, is_url.
  destruct (nonempty (strip raw)); cbn [negb andb]; [|lia].
  destruct (startswith (strip raw) "#EXTINF:"); cbn [channels]; [lia|].
  destruct (pending st); [|lia].
  destruct (startswith (strip raw) "#"); cbn [negb channels]; [lia|].
  rewrite List.length_app. simpl. lia.
Qed.

Lemma run_count (ls : list string) (st : loop_state) :
  length (channels (run st ls)) + pending_count (run st ls)
  <= length (channels st) + pending_count st + length (filter is_extinf ls)
  /\ length (channels (run st ls))
     <= length (channels st) + length (filter is_url ls).
Proof.
  revert st. induction ls as [|l ls IH]; intros st.
  - simpl. lia.
  - rewrite run_cons. destruct (IH (step st l)) as [IH1 IH2].
    pose proof (step_count_extinf st l). pose proof (step_count_url st l).
    cbn [filter]. destruct (is_extinf l); destruct (is_url l);
      cbn [length]; lia.
Qed.

(** X7. A parse result has at most as many channels as the text has metadata
    lines after the first line, and at most as many as it has URL
    lines. *)
Theorem parse_count_bound (content : string) :
  length (_parse_playlist content)
    <= length (filter is_extinf (body_lines content))
  /\ length (_parse_playlist content)
     <= length (filter is_url (body_lines content)).
Proof.
  destruct (run_count (body_lines content) init) as [H1 H2].
  unfold _parse_playlist. fold (body_lines content).
  cbn in H1, H2. split; lia.
Qed.

End ParserInv.

(* ================================================================= *)
(** ** More on the attribute patterns *)

Module ReMore.
Import Parser StrFacts ReFacts Re.

Local Open Scope string_scope.
Local Arguments Ascii.eqb : simpl never.

Lemma span_value_app (v rest : string) :
  mem dquote v = false ->
  span_value (v ++ String dquote rest) = (v, String dquote rest).
Proof.
  induction v as [|c v IH]; simpl; intros H.
  - reflexivity.
  - apply orb_false_elim in H as [Hc Hv]. now rewrite Hc, (IH Hv).
Qed.

Lemma span_value_no_quote (s v rest : string) :
  span_value s = (v, rest) -> mem dquote v = false.
Proof.
  revert v rest. induction s as [|c s IH]; simpl; intros v rest H.
  - now inversion H.
  - destruct (Ascii.eqb c dquote) eqn:Hc.
    + now inversion H.
    + destruct (span_value s) as [v' rest'] eqn:E. inversion H; subst.
      simpl. now rewrite Hc, (IH _ _ eq_refl).
Qed.

Lemma match_here_value (key v post : string) :
  mem dquote v = false -> match_here key (attr key v ++ post) = Some v.
Proof.
  intros Hv. unfold match_here.
  rewrite attr_opening, !app_assoc, strip_prefix_app.
  change (q ++ post) with (String dquote post).
  now rewrite (span_value_app v post Hv), Ascii.eqb_refl.
Qed.

Lemma match_here_no_quote (key s v : string) :
  match_here key s = Some v -> mem dquote v = false.
Proof.
  unfold match_here.
  destruct (strip_prefix (opening key) s) as [rest|]; [|discriminate].
  destruct (span_value rest) as [v' rest'] eqn:Es.
  destruct rest' as [|c r]; [discriminate|].
  destruct (Ascii.eqb c dquote); [|discriminate].
  intros H; inversion H; subst. now apply (span_value_no_quote rest v (String c r)).
Qed.

Lemma search_no_quote (key s v : string) :
  search key s = Some v -> mem dquote v = false.
Proof.
  induction s as [|c s IH]; rewrite search_unfold;
    destruct (match_here key _) eqn:E; try discriminate.
  - intros H; inversion H; subst. now apply (match_here_no_quote key "").
  - intros H; inversion H; subst. now apply (match_here_no_quote key (String c s)).
  - exact IH.
Qed.

Lemma search_first (key pre v post : string) :
  first_opening key pre = true -> mem dquote v = false ->
  search key (pre ++ attr key v ++ post) = Some v.
Proof.
  unfold first_opening. rewrite negb_true_iff. intros H Hv. revert H.
  induction pre as [|c pre IH]; intros H; rewrite search_unfold.
  - cbn [append]. now rewrite match_here_value.
  - cbn [append is_substring] in H. apply orb_false_elim in H as [H1 H2].
    assert (E : String c pre ++ attr key v ++ post
                = (String c (pre ++ key ++ "=")) ++ q ++ v ++ q ++ post).
    { unfold attr. rewrite !app_assoc. cbn [append].
      rewrite !app_assoc. reflexivity. }
    unfold match_here. rewrite E, strip_prefix_short; [| |exact H1].
    + rewrite <- E. cbn [append]. apply IH. exact H2.
    + unfold opening. cbn [String.length]. rewrite !length_app. simpl. lia.
Qed.

(** X8. Each pattern captures the value of the first attribute with its key:
    when no earlier place of the line starts like the attribute and the
    value holds no double quote, that value is the match. *)
Theorem first_attribute_wins (f : field) (pre v post : string) :
  first_opening (key_of f) pre = true -> mem dquote v = false ->
  patterns f (pre ++ attr (key_of f) v ++ post) = Some v.
Proof. intros H Hv. now apply search_first. Qed.

Lemma first_attribute_wins_witness :
  patterns f_logo
    ("#EXTINF:-1 " ++ attr "tvg-logo" "http://x/a.png" ++
       (" " ++ attr "tvg-logo" "http://x/b.png" ++ ",Game"))
  = Some "http://x/a.png".
Proof.
  apply (first_attribute_wins f_logo "#EXTINF:-1 " "http://x/a.png"
           (" " ++ attr "tvg-logo" "http://x/b.png" ++ ",Game"));
    reflexivity.
Defined.

(** X9. What a pattern captures is the value of an attribute of the line, and
    it holds no double quote. *)
Theorem captured_value_is_an_attribute (f : field) (line v : string) :
  patterns f line = Some v ->
  mem dquote v = false
  /\ exists pre post, line = pre ++ attr (key_of f) v ++ post.
Proof.
  unfold patterns. intros H. split.
  - now apply (search_no_quote (key_of f) line).
  - now apply search_sound.
Qed.

Lemma captured_value_is_an_attribute_witness :
  mem dquote "de" = false
  /\ exists pre post,
       "#EXTINF:-1 " ++ attr "tvg-language" "de" ++ ",Kino"
       = pre ++ attr "tvg-language" "de" ++ post.
Proof.
  apply (captured_value_is_an_attribute f_language
           ("#EXTINF:-1 " ++ attr "tvg-language" "de" ++ ",Kino") "de").
  reflexivity.
Defined.

(** X10. The four optional fields of a channel are absent exactly when the
    metadata line has no attribute with their key. *)
Theorem optional_fields_follow_attributes (extinf_line line : string) :
  (logo (make_channel extinf_line line) = None
     <-> ~ has_attr "tvg-logo" extinf_line)
  /\ (epg_id (make_channel extinf_line line) = None
        <-> ~ has_attr "tvg-id" extinf_line)
  /\ (country (make_channel extinf_line line) = None
        <-> ~ has_attr "tvg-country" extinf_line)
  /\ (language (make_channel extinf_line line) = None
        <-> ~ has_attr "tvg-language" extinf_line).
Proof.
  unfold make_channel, patterns.
  cbn [logo epg_id country language key_of].
  repeat split; try apply search_none_iff; apply search_none_iff.
Qed.

End ReMore.

(* ================================================================= *)
(** ** More on search *)

Module SearchMore.
Import StrFacts CaseFacts SearchFacts ParserMore Browser.

Lemma filter_idem {A : Type} (p : A -> bool) (xs : list A) :
  filter p (filter p xs) = filter p xs.
Proof.
  induction xs as [|x xs IH]; simpl; [reflexivity|].
  destruct (p x) eqn:E; simpl; [now rewrite E, IH | exact IH].
Qed.

(** X11. Searching the results of a search with the same query gives the same
    results. *)
Theorem search_again_is_identity
  (partial_ratio : string -> string -> Z)
  (chans : list IPTVChannel) (query : string) :
  search_channels partial_ratio
    (search_channels partial_ratio chans query) query
  = search_channels partial_ratio chans query.
Proof.
  rewrite !search_channels_filter.
  destruct (nonempty (lower (strip query))); [apply filter_idem | reflexivity].
Qed.

(** X12. The search of a list made of two parts is the search of the first
    part followed by the search of the second. *)
Theorem search_of_appended_lists
  (partial_ratio : string -> string -> Z)
  (xs ys : list IPTVChannel) (query : string) :
  search_channels partial_ratio (xs ++ ys) query
  = search_channels partial_ratio xs query
    ++ search_channels partial_ratio ys query.
Proof.
  rewrite !search_channels_filter.
  destruct (nonempty (lower (strip query))); [apply filter_app | reflexivity].
Qed.

Lemma normal_query (w1 w2 query : string) :
  all_space w1 = true -> all_space w2 = true ->
  lower (strip (w1 ++ lower query ++ w2)%string) = lower (strip query).
Proof.
  intros H1 H2.
  rewrite <- StrFacts.app_assoc, (strip_app_space _ w2 H2).
  unfold strip at 1. rewrite (lstrip_space_app w1 _ H1).
  fold (strip (lower query)). now rewrite strip_lower, lower_idem.
Qed.

(** X13. The case of the query and white space around it do not matter. *)
Theorem search_ignores_case_and_padding
  (partial_ratio : string -> string -> Z)
  (chans : list IPTVChannel) (w1 w2 query : string) :
  all_space w1 = true -> all_space w2 = true ->
  search_channels partial_ratio chans (w1 ++ lower query ++ w2)%string
  = search_channels partial_ratio chans query.
Proof.
  intros H1 H2. rewrite !search_channels_filter.
  now rewrite (normal_query w1 w2 query H1 H2).
Qed.

Lemma search_ignores_case_and_padding_witness :
  search_channels substring_score [Samples.news1; Samples.game] "  news "
  = search_channels substring_score [Samples.news1; Samples.game] "NEWS".
Proof.
  apply (search_ignores_case_and_padding substring_score
           [Samples.news1; Samples.game] "  " " " "NEWS"); reflexivity.
Defined.

End SearchMore.

(* ================================================================= *)
(** ** Grouping *)

Module GroupFacts.
Import Browser Shell Vocab.

Lemma lookup_add_same (g : groups_t) (k : string) (c : IPTVChannel) :
  lookup (add_to_group g k c) k
  = Some (match lookup g k with Some cs => cs ++ [c] | None => [c] end).
Proof.
  induction g as [|[k0 cs] rest IH]; simpl.
  - now rewrite String.eqb_refl.
  - destruct (String.eqb k0 k) eqn:E; simpl; rewrite E; [reflexivity | exact IH].
Qed.

Lemma lookup_add_other (g : groups_t) (k k' : string) (c : IPTVChannel) :
  k <> k' -> lookup (add_to_group g k c) k' = lookup g k'.
Proof.
  intros Hne. induction g as [|[k0 cs] rest IH]; simpl.
  - apply String.eqb_neq in Hne. now rewrite Hne.
  - destruct (String.eqb_spec k0 k) as [->|Hk]; simpl.
    + apply String.eqb_neq in Hne. now rewrite Hne.
    + now rewrite IH.
Qed.

Lemma lookup_fold (chans : list IPTVChannel) (g : groups_t) (k : string) :
  lookup
    (fold_left (fun groups channel =>
                  add_to_group groups (group_key channel) channel) chans g) k
  = match lookup g k, members k chans with
    | Some cs, ms => Some (cs ++ ms)
    | None, [] => None
    | None, ms => Some ms
    end.
Proof.
  revert g. induction chans as [|c rest IH]; intros g; simpl.
  - destruct (lookup g k); [now rewrite app_nil_r | reflexivity].
  - rewrite IH. unfold members. cbn [filter].
    destruct (String.eqb_spec (group_key c) k) as [->|Hne].
    + rewrite lookup_add_same.
      destruct (lookup g k); [now rewrite <- app_assoc | reflexivity].
    + now rewrite (lookup_add_other g _ _ c Hne).
Qed.

(** X14. Each group holds exactly the channels with its key, in the order of
    the channel list; a key no channel has is no group. *)
Theorem group_lookup (chans : list IPTVChannel) (k : string) :
  lookup (group_channels chans) k
  = match members k chans with
    | [] => None
    | ms => Some ms
    end.
Proof. unfold group_channels. now rewrite lookup_fold. Qed.

Lemma keys_add (g : groups_t) (k k' : string) (c : IPTVChannel) :
  In k' (map fst (add_to_group g k c)) <-> k' = k \/ In k' (map fst g).
Proof.
  induction g as [|[k0 cs] rest IH]; simpl.
  - intuition.
  - destruct (String.eqb_spec k0 k) as [->|Hk]; simpl; [intuition|].
    rewrite IH. intuition.
Qed.

Lemma nodup_add (g : groups_t) (k : string) (c : IPTVChannel) :
  NoDup (map fst g) -> NoDup (map fst (add_to_group g k c)).
Proof.
  induction g as [|[k0 cs] rest IH]; simpl; intros H.
  - constructor; [intros [] | constructor].
  - destruct (String.eqb_spec k0 k) as [->|Hk]; simpl; [exact H|].
    inversion H; subst. constructor; [|now apply IH].
    rewrite keys_add. intros [-> | Hin]; [now apply Hk | contradiction].
Qed.

Lemma group_key_nonempty (c : IPTVChannel) :
  PyStr.nonempty (group_key c) = true.
Proof. unfold group_key. now destruct (PyStr.nonempty (group c)) eqn:E. Qed.

Lemma keys_fold (chans : list IPTVChannel) (g : groups_t) :
  let g' := fold_left (fun groups channel =>
                         add_to_group groups (group_key channel) channel)
                      chans g in
  (NoDup (map fst g) -> NoDup (map fst g'))
  /\ (forall k, In k (map fst g') <->
                In k (map fst g) \/ exists c, In c chans /\ group_key c = k).
Proof.
  revert g. induction chans as [|c rest IH]; intros g; simpl.
  - split; [auto|]. intros k. split; [auto|]. intros [H | (c & [] & _)]. exact H.
  - destruct (IH (add_to_group g (group_key c) c)) as [IH1 IH2]. split.
    + intros H. apply IH1. now apply nodup_add.
    + intros k. rewrite IH2, keys_add. split.
      * intros [[-> | H] | (c' & Hin & E)]; eauto.
      * intros [H | (c' & [-> | Hin] & E)]; eauto.
Qed.

(** X15. The group names are distinct, never empty, and are exactly the keys
    of the channels of the list. *)
Theorem group_keys (chans : list IPTVChannel) :
  NoDup (map fst (group_channels chans))
  /\ (forall k, In k (map fst (group_channels chans)) <->
                exists c, In c chans /\ group_key c = k)
  /\ (forall k, In k (map fst (group_channels chans)) ->
                PyStr.nonempty k = true).
Proof.
  destruct (keys_fold chans []) as [H1 H2]. cbn zeta in H1, H2.
  fold (group_channels chans) in H1, H2.
  assert (H3 : forall k, In k (map fst (group_channels chans)) <->
                         exists c, In c chans /\ group_key c = k).
  { intros k. rewrite H2. simpl. intuition. }
  split; [apply H1; constructor|]. split; [exact H3|].
  intros k Hk. apply H3 in Hk as (c & _ & <-). apply group_key_nonempty.
Qed.

Lemma members_add (g : groups_t) (k : string) (c : IPTVChannel) :
  Permutation (all_members (add_to_group g k c)) (c :: all_members g).
Proof.
  unfold all_members. induction g as [|[k0 cs] rest IH]; simpl.
  - reflexivity.
  - destruct (String.eqb k0 k); simpl.
    + rewrite <- app_assoc. simpl.
      symmetry. apply Permutation_middle.
    + rewrite IH. symmetry. apply Permutation_middle.
Qed.

Lemma members_fold (chans : list IPTVChannel) (g : groups_t) :
  Permutation
    (all_members
       (fold_left (fun groups channel =>
                     add_to_group groups (group_key channel) channel) chans g))
    (all_members g ++ chans).
Proof.
  revert g. induction chans as [|c rest IH]; intros g; simpl.
  - now rewrite app_nil_r.
  - rewrite IH, members_add. simpl. apply Permutation_middle.
Qed.

(** X16. Grouping loses and repeats no channel: the groups, one after the
    other, are a rearrangement of the channel list. *)
Theorem groups_rearrange_channels (chans : list IPTVChannel) :
  Permutation (all_members (group_channels chans)) chans.
Proof. unfold group_channels. now rewrite members_fold. Qed.

End GroupFacts.

(* ================================================================= *)
(** ** Numbers as shown and as typed *)

Module NumberFacts.
Import Shell Display Vocab StrFacts.

Local Open Scope string_scope.
Local Arguments Ascii.eqb : simpl never.

Ltac digit_cases c :=
  destruct c as [[] [] [] [] [] [] [] []];
  try discriminate; try reflexivity.

Lemma digit_not_space (c : ascii) : is_digit c = true -> int_space c = false.
Proof. digit_cases c. Qed.

Lemma all_digits_lstrip (s : string) : all_digits s = true -> int_lstrip s = s.
Proof.
  destruct s as [|c s]; simpl; [reflexivity|].
  intros H. apply andb_prop in H as [Hc _].
  now rewrite (digit_not_space c Hc).
Qed.

Lemma all_digits_rstrip (s : string) : all_digits s = true -> int_rstrip s = s.
Proof.
  induction s as [|c s IH]; simpl; [reflexivity|].
  intros H. apply andb_prop in H as [Hc Hs]. rewrite (IH Hs).
  destruct s; [now rewrite (digit_not_space c Hc) | reflexivity].
Qed.

Lemma all_digits_count (s : string) :
  all_digits s = true -> digit_count s = Z.of_nat (String.length s).
Proof.
  induction s as [|c s IH]; [reflexivity|].
  cbn [all_digits digit_count String.length]. intros H.
  apply andb_prop in H as [Hc Hs]. rewrite Hc, (IH Hs). lia.
Qed.

(** A string of digits is read without a sign. *)
Lemma int_all_digits (s : string) :
  all_digits s = true -> int s = literal s.
Proof.
  intros H. unfold int.
  rewrite (all_digits_lstrip s H), (all_digits_rstrip s H).
  destruct s as [|c s]; [reflexivity|].
  simpl in H. apply andb_prop in H as [Hc _]. revert Hc. digit_cases c.
Qed.

Lemma all_digits_not_back (s : string) :
  all_digits s = true -> String.eqb (lower s) "b" = false.
Proof.
  destruct s as [|c s]; [reflexivity|].
  simpl. intros H. apply andb_prop in H as [Hc _]. revert Hc.
  digit_cases c.
Qed.

Lemma string_of_uint_digits (d : Decimal.uint) :
  all_digits (DecimalString.NilEmpty.string_of_uint d) = true.
Proof. induction d; simpl; auto. Qed.

Lemma digits_of_uint (d : Decimal.uint) (a : nat) :
  digits (Z.of_nat a) true (DecimalString.NilEmpty.string_of_uint d)
  = Some (Z.of_nat (Nat.of_uint_acc d a)).
Proof.
  revert a. induction d; intros a; [reflexivity| ..];
    cbn [DecimalString.NilEmpty.string_of_uint digits Nat.of_uint_acc];
    match goal with
    | |- context [is_digit ?c] =>
        change (is_digit c) with true; cbv beta iota;
        rewrite <- IHd; f_equal; unfold digit_value;
        rewrite Nat.tail_mul_spec; cbn [nat_of_ascii]; simpl Z.of_nat at 2;
        lia
    end.
Qed.

Lemma digits_of_uint_start (d : Decimal.uint) :
  d <> Decimal.Nil ->
  digits 0 false (DecimalString.NilEmpty.string_of_uint d)
  = Some (Z.of_nat (Nat.of_uint d)).
Proof.
  intros Hd. unfold Nat.of_uint.
  destruct d; [congruence| ..];
    cbn [DecimalString.NilEmpty.string_of_uint digits Nat.of_uint_acc];
    match goal with
    | |- context [is_digit ?c] =>
        change (is_digit c) with true; cbv beta iota;
        rewrite <- digits_of_uint; reflexivity
    end.
Qed.

Lemma revapp_nonnil (d acc : Decimal.uint) :
  acc <> Decimal.Nil -> Decimal.revapp d acc <> Decimal.Nil.
Proof.
  revert acc. induction d; intros acc H; simpl; auto; apply IHd; discriminate.
Qed.

Lemma little_nonnil (n : nat) (acc : Decimal.uint) :
  acc <> Decimal.Nil -> Nat.to_little_uint n acc <> Decimal.Nil.
Proof.
  revert acc. induction n as [|n IH]; intros acc H; simpl; [exact H|].
  apply IH. destruct acc; simpl; discriminate.
Qed.

Lemma to_uint_nonnil (n : nat) : Nat.to_uint n <> Decimal.Nil.
Proof.
  unfold Nat.to_uint, Decimal.rev.
  assert (H : Nat.to_little_uint n Decimal.zero <> Decimal.Nil)
    by (apply little_nonnil; discriminate).
  destruct (Nat.to_little_uint n Decimal.zero); [congruence| ..];
    simpl; apply revapp_nonnil; discriminate.
Qed.

Lemma decimal_digits (n : nat) : all_digits (decimal n) = true.
Proof. apply string_of_uint_digits. Qed.

Lemma str_decimal (n : nat) (number : string) :
  str n = Some number ->
  number = decimal n
  /\ (Z.of_nat (String.length number) <= int_max_str_digits)%Z.
Proof.
  unfold str.
  destruct (Z.of_nat (String.length (decimal n)) <=? int_max_str_digits)%Z
    eqn:E; [|discriminate].
  intros H; inversion H; subst. split; [reflexivity | now apply Z.leb_le].
Qed.

Lemma str_digits (n : nat) (number : string) :
  str n = Some number -> all_digits number = true.
Proof.
  intros H. apply str_decimal in H as [-> _]. apply decimal_digits.
Qed.

(** Reading the decimal writing of a number gives the number back. *)
Lemma int_str (n : nat) (number : string) :
  str n = Some number -> int number = Some (Z.of_nat n).
Proof.
  intros H. apply str_decimal in H as [-> Hlen].
  rewrite (int_all_digits _ (decimal_digits n)). unfold literal, decimal.
  rewrite (digits_of_uint_start _ (to_uint_nonnil n)).
  rewrite DecimalNat.Unsigned.of_to.
  fold (decimal n). rewrite (all_digits_count _ (decimal_digits n)).
  apply Z.leb_le in Hlen. now rewrite Hlen.
Qed.

Lemma nth_enumerate {A : Type} (xs : list A) (start k : nat) :
  nth_error (enumerate start xs) k
  = option_map (fun x => (start + k, x)) (nth_error xs k).
Proof.
  revert start k. induction xs as [|x xs IH]; intros start [|k]; simpl;
    try reflexivity.
  - now rewrite Nat.add_0_r.
  - rewrite IH. now rewrite Nat.add_succ_r.
Qed.

(** A literal with more digits than the limit is refused, leading zeros
    counted. *)
Lemma int_refuses_long_literals (s : string) :
  all_digits s = true ->
  (int_max_str_digits < Z.of_nat (String.length s))%Z ->
  int s = None.
Proof.
  intros H Hlen. rewrite (int_all_digits s H). unfold literal.
  destruct (digits 0 false s); [|reflexivity].
  rewrite (all_digits_count s H).
  apply Z.leb_gt in Hlen. now rewrite Hlen.
Qed.

(** What [int] reads and what it refuses: the separators FS..US are no
    white space to it, the no-break space is; a sign and single
    underscores between digits are read. *)
Example int_reads_and_refuses :
  int (String "028" (String "2" (String "031" ""))) = None
  /\ int (String "160" (String "2" (String "133" ""))) = Some 2%Z
  /\ int " +2 " = Some 2%Z
  /\ int "1_0" = Some 10%Z
  /\ int "1__0" = None
  /\ int "- 2" = None.
Proof. repeat split; vm_compute; reflexivity. Qed.

End NumberFacts.

(* ================================================================= *)
(** ** More on the screens *)

Module ShellMore.
Import Shell Display Vocab NumberFacts GroupFacts.

Local Open Scope Z_scope.

Lemma channel_screen_rejects_witness :
  exists msg,
    react Samples.host_with_vlc
      [ChannelScreen [Samples.news1; Samples.game]] "3"
    = ([ChannelScreen [Samples.news1; Samples.game]], [Print msg]).
Proof.
  apply (ShellFacts.channel_screen_rejects Samples.host_with_vlc
           [Samples.news1; Samples.game] [] "3").
  - discriminate.
  - right. reflexivity.
Defined.

Lemma group_screen_rejects_witness :
  react Samples.host_with_vlc [GroupScreen Samples.example_groups] "-2"
  = ([GroupScreen Samples.example_groups], [Print "Invalid group number"]).
Proof.
  apply (ShellFacts.group_screen_rejects Samples.host_with_vlc
           Samples.example_groups [] "-2").
  - discriminate.
  - right. vm_compute. discriminate.
Defined.

Lemma group_screen_accepts_nonpositive_witness :
  exists chans,
    react Samples.host_with_vlc [GroupScreen Samples.example_groups] "-1"
    = ([ChannelScreen chans; GroupScreen Samples.example_groups], []).
Proof.
  apply (ShellFacts.group_screen_accepts_nonpositive Samples.host_with_vlc
           Samples.example_groups [] "-1" (-1)).
  - discriminate.
  - reflexivity.
  - vm_compute. split; discriminate.
Defined.

(** X20. On the channel screen a number from 1 to the length starts the
    player on the URL of the channel in that row, and the screen stays. *)
Theorem valid_selection_plays
  (h : host) (chans : list IPTVChannel) (outer : position)
  (choice : string) (n : Z) (c : IPTVChannel) (vlc : string) :
  lower choice <> "b"%string ->
  int choice = Some n -> 1 <= n ->
  nth_error chans (Z.to_nat (n - 1)) = Some c ->
  setup_vlc h = (vlc, true) -> popen h [vlc; url c] = Started ->
  react h (ChannelScreen chans :: outer) choice
  = (ChannelScreen chans :: outer, [Spawn [vlc; url c]]).
Proof.
  intros Hb Hint Hn Hnth Hvlc Hpopen. unfold react, browse_channels_iter.
  apply String.eqb_neq in Hb. rewrite Hb, Hint.
  assert (Hlt : (Z.to_nat (n - 1) < length chans)%nat)
    by (apply nth_error_Some; congruence).
  assert (E : (0 <=? n - 1) && (n - 1 <? Z.of_nat (length chans)) = true).
  { apply andb_true_iff. split; [apply Z.leb_le | apply Z.ltb_lt]; lia. }
  rewrite E, Hnth. unfold play_channel. rewrite Hvlc. cbn [negb].
  now rewrite Hpopen.
Qed.

Lemma valid_selection_plays_witness :
  react Samples.host_with_vlc
    [ChannelScreen [Samples.news1; Samples.game]] " +2 "
  = ([ChannelScreen [Samples.news1; Samples.game]],
     [Spawn ["/usr/bin/vlc"; "http://x/2"]]%string).
Proof.
  apply (valid_selection_plays Samples.host_with_vlc
           [Samples.news1; Samples.game] [] " +2 " 2 Samples.game
           "/usr/bin/vlc"); try reflexivity; try lia.
  discriminate.
Defined.

(** X21. Every channel whose number can be written has a row in the
    channel table with that number and its name, and typing the number
    plays the channel, when the player is found and starts on its URL. *)
Theorem displayed_number_selects_row
  (h : host) (chans : list IPTVChannel) (k : nat) (c : IPTVChannel)
  (number vlc : string) :
  nth_error chans k = Some c -> str (S k) = Some number ->
  setup_vlc h = (vlc, true) -> popen h [vlc; url c] = Started ->
  In (number, name c, or_else (group c) "N/A",
      opt_or_else (language c) "N/A")
     (display_channels chans)
  /\ browse_channels_iter h chans number = (Continue, [Spawn [vlc; url c]]).
Proof.
  intros Hc Hstr Hvlc Hpopen. split.
  - unfold display_channels. apply in_flat_map. exists (S k, c). split.
    + apply (nth_error_In _ k). rewrite nth_enumerate, Hc. reflexivity.
    + unfold display_row. rewrite Hstr. now left.
  - unfold browse_channels_iter.
    rewrite (all_digits_not_back _ (str_digits _ _ Hstr)), (int_str _ _ Hstr).
    assert (Hlt : (k < length chans)%nat)
      by (apply nth_error_Some; congruence).
    replace (Z.of_nat (S k) - 1) with (Z.of_nat k) by lia.
    assert (E : (0 <=? Z.of_nat k) && (Z.of_nat k <? Z.of_nat (length chans))
                = true).
    { apply andb_true_iff. split; [apply Z.leb_le | apply Z.ltb_lt]; lia. }
    rewrite E, Nat2Z.id, Hc. unfold play_channel. rewrite Hvlc. cbn [negb].
    now rewrite Hpopen.
Qed.

Lemma displayed_number_selects_row_witness :
  In ("3", "Radio", "N/A", "N/A")%string (display_channels MoreSamples.four)
  /\ browse_channels_iter Samples.host_with_vlc MoreSamples.four "3"
     = (Continue, [Spawn ["/usr/bin/vlc"; "http://x/5"]]%string).
Proof.
  apply (displayed_number_selects_row Samples.host_with_vlc MoreSamples.four
           2 MoreSamples.bare "3" "/usr/bin/vlc"); reflexivity.
Defined.

Ltac no_spawn :=
  let argv := fresh "argv" in
  let H := fresh "H" in
  intros argv H; simpl in H;
  repeat match goal with
         | H : _ \/ _ |- _ => destruct H
         | H : False |- _ => destruct H
         | H : _ = Spawn _ |- _ => try discriminate H
         end.

Lemma browse_channels_spawns
  (h : host) (chans : list IPTVChannel) (choice : string) :
  launches_only (fst (setup_vlc h)) chans
    (snd (browse_channels_iter h chans choice))
  /\ (snd (setup_vlc h) = false ->
      launches_nothing (snd (browse_channels_iter h chans choice))).
Proof.
  unfold browse_channels_iter, play_channel, launches_only, launches_nothing.
  destruct (String.eqb (lower choice) "b"); [split; [|intros _]; no_spawn|].
  destruct (int choice) as [n|]; [|split; [|intros _]; no_spawn].
  destruct ((0 <=? n - 1) && (n - 1 <? Z.of_nat (length chans)));
    [|split; [|intros _]; no_spawn].
  destruct (nth_error chans (Z.to_nat (n - 1))) as [c|] eqn:Hc;
    [|split; [|intros _]; no_spawn].
  destruct (setup_vlc h) as [vlc found]. cbn [fst snd].
  destruct found; cbn [negb]; [|split; [|intros _]; no_spawn].
  destruct (popen h [vlc; url c]); split; try discriminate; try no_spawn.
  inversion H; subst. exists c. split; [|reflexivity].
  now apply nth_error_In in Hc.
Qed.

(** X22. Whatever is typed on the channel screen, the only process it can
    start is the player found by the host, on the URL of a channel of the
    list shown; without a player nothing is started. *)
Theorem channel_screen_launches_only
  (h : host) (chans : list IPTVChannel) (choice : string) :
  launches_only (fst (setup_vlc h)) chans
    (snd (browse_channels_iter h chans choice))
  /\ (snd (setup_vlc h) = false ->
      launches_nothing (snd (browse_channels_iter h chans choice))).
Proof. apply browse_channels_spawns. Qed.

(** X23. On the group screen built from a channel list, the number of a group
    opens the channels that have the group's key, in list order, of which
    there is at least one; the answer b then leads back. *)
Theorem group_selection_opens_members
  (h : host) (chans : list IPTVChannel) (outer : position)
  (choice : string) (k : nat) (key : string) :
  lower choice <> "b"%string ->
  int choice = Some (Z.of_nat k + 1) ->
  nth_error (map fst (Browser.group_channels chans)) k = Some key ->
  members key chans <> []
  /\ react h (GroupScreen (Browser.group_channels chans) :: outer) choice
     = (ChannelScreen (members key chans)
          :: GroupScreen (Browser.group_channels chans) :: outer, [])
  /\ react h
       (ChannelScreen (members key chans)
          :: GroupScreen (Browser.group_channels chans) :: outer) "b"
     = (GroupScreen (Browser.group_channels chans) :: outer, []).
Proof.
  intros Hb Hint Hnth.
  assert (Hne : members key chans <> []).
  { apply nth_error_In in Hnth.
    destruct (keys_fold chans []) as [_ Hkeys]. cbn zeta in Hkeys.
    apply Hkeys in Hnth as [[] | (c & Hin & Hkey)].
    assert (Hm : In c (members key chans)).
    { apply filter_In. split; [exact Hin|]. now apply String.eqb_eq. }
    intros E. now rewrite E in Hm. }
  split; [exact Hne|]. split; [|reflexivity].
  unfold react, browse_groups_iter.
  apply String.eqb_neq in Hb. rewrite Hb, Hint.
  replace (Z.of_nat k + 1 - 1) with (Z.of_nat k) by lia.
  assert (Hlt : (k < length (map fst (Browser.group_channels chans)))%nat)
    by (apply nth_error_Some; congruence).
  unfold index.
  replace (Z.of_nat k <? 0) with false by (symmetry; apply Z.ltb_ge; lia).
  assert (E : (0 <=? Z.of_nat k)
              && (Z.of_nat k
                  <? Z.of_nat (length (map fst (Browser.group_channels chans))))
              = true).
  { apply andb_true_iff. split; [apply Z.leb_le | apply Z.ltb_lt]; lia. }
  rewrite E, Nat2Z.id, Hnth.
  unfold Browser.group_channels at 1. rewrite lookup_fold. cbn [lookup].
  fold (Browser.group_channels chans).
  destruct (members key chans); [contradiction | reflexivity].
Qed.

Lemma group_selection_opens_members_witness :
  members "Sports" [Samples.news1; Samples.game] <> []
  /\ react Samples.host_with_vlc
       [GroupScreen (Browser.group_channels [Samples.news1; Samples.game])]
       "2"
     = ([ChannelScreen (members "Sports" [Samples.news1; Samples.game]);
         GroupScreen (Browser.group_channels [Samples.news1; Samples.game])],
        [])
  /\ react Samples.host_with_vlc
       [ChannelScreen (members "Sports" [Samples.news1; Samples.game]);
        GroupScreen (Browser.group_channels [Samples.news1; Samples.game])]
       "b"
     = ([GroupScreen (Browser.group_channels [Samples.news1; Samples.game])],
        []).
Proof.
  apply (group_selection_opens_members Samples.host_with_vlc
           [Samples.news1; Samples.game] [] "2" 1 "Sports");
    try reflexivity.
  discriminate.
Defined.

(** When the player cannot be started because an argument is refused,
    the channel screen reports invalid input and does not pause; any
    other failure to start is reported as an error, with a pause. *)
Example refused_argument_is_invalid_input :
  browse_channels_iter
    (mkHost ("/usr/bin/vlc", true)%string (fun _ => BadArgument))
    [Samples.game] "1"
  = (Continue, [Print "Invalid input"])
  /\ browse_channels_iter
       (mkHost ("/usr/bin/vlc", true)%string (fun _ => Failed))
       [Samples.game] "1"
     = (Continue, [Print "An error occurred. Please try again."; Pause]).
Proof. split; vm_compute; reflexivity. Qed.

End ShellMore.

(* ================================================================= *)
(** ** Finding the player *)

Module VlcFacts.
Import Vlc Vocab.

Lemma vlc_paths_nonempty (system : string) (paths : list string) (x : string) :
  vlc_paths system = Some paths -> In x paths -> nonempty x = true.
Proof.
  unfold vlc_paths.
  destruct (String.eqb system "Windows");
    [|destruct (String.eqb system "Darwin");
      [|destruct (String.eqb system "Linux"); [|discriminate]]];
    intros H; inversion H; subst; simpl; intuition (subst; reflexivity).
Qed.

Lemma known_place_spec
  (system : string) (isfile : string -> bool) :
  match known_place system isfile with
  | (p, true) =>
      nonempty p = true /\ isfile p = true
      /\ exists paths, vlc_paths system = Some paths /\ In p paths
  | (p, false) =>
      p = EmptyString
      /\ forall paths x, vlc_paths system = Some paths ->
                         In x paths -> isfile x = false
  end.
Proof.
  unfold known_place.
  destruct (vlc_paths system) as [paths|] eqn:Ep; [|split; [easy | discriminate]].
  destruct (find isfile paths) as [p|] eqn:Ef.
  - apply find_some in Ef as [Hin Hfile]. split; [|split; [exact Hfile|]].
    + now apply (vlc_paths_nonempty system paths).
    + now exists paths.
  - split; [reflexivity|]. intros paths' x E Hin. inversion E; subst.
    now apply (find_none isfile paths' Ef).
Qed.

(** X24. [setup_vlc] reports a player exactly when there is one: the path it
    returns is not empty and is the answer of the search path or an
    existing file among the system's well-known places; when it reports
    none, the search path gave nothing and none of the well-known places
    exists. *)
Theorem setup_vlc_finds_existing
  (system : string) (which : string -> option string)
  (isfile : string -> bool) :
  match setup_vlc system which isfile with
  | (p, true) =>
      nonempty p = true
      /\ (which "vlc" = Some p
          \/ (isfile p = true
              /\ exists paths, vlc_paths system = Some paths /\ In p paths))
  | (p, false) =>
      p = EmptyString
      /\ (forall p', which "vlc" = Some p' -> p' = EmptyString)
      /\ (forall paths x, vlc_paths system = Some paths ->
                          In x paths -> isfile x = false)
  end.
Proof.
  unfold setup_vlc. pose proof (known_place_spec system isfile) as Hk.
  destruct (which "vlc") as [p0|] eqn:Ew.
  - destruct (nonempty p0) eqn:Hne; [split; [exact Hne | now left]|].
    destruct (known_place system isfile) as [p [|]].
    + destruct Hk as (H1 & H2 & H3). split; [exact H1 | right; now split].
    + destruct Hk as [H1 H2]. split; [exact H1|]. split; [|exact H2].
      intros p' E. inversion E; subst. now destruct p'.
  - destruct (known_place system isfile) as [p [|]].
    + destruct Hk as (H1 & H2 & H3). split; [exact H1 | right; now split].
    + destruct Hk as [H1 H2]. split; [exact H1|]. split; [discriminate | exact H2].
Qed.

(** X25. On a system that is no key of the table, with no player on the
    search path, playing a channel fails with the player missing and
    starts nothing, whatever files exist. *)
Theorem unknown_system_cannot_play
  (system : string) (which : string -> option string)
  (isfile : string -> bool) (popen : list string -> Shell.launch)
  (c : IPTVChannel) :
  vlc_paths system = None -> which "vlc" = None ->
  Shell.play_channel (host_of system which isfile popen) c
  = ([], Browser.Raise Browser.VLCNotFoundError).
Proof.
  intros Hp Hw. unfold Shell.play_channel, host_of. cbn [Shell.setup_vlc].
  unfold setup_vlc, known_place. now rewrite Hw, Hp.
Qed.

Lemma unknown_system_cannot_play_witness :
  Shell.play_channel
    (host_of "FreeBSD" MoreSamples.which_nothing MoreSamples.isfile_local
       (fun _ => Shell.Started))
    Samples.game
  = ([], Browser.Raise Browser.VLCNotFoundError).
Proof.
  apply (unknown_system_cannot_play "FreeBSD" MoreSamples.which_nothing
           MoreSamples.isfile_local (fun _ => Shell.Started) Samples.game);
    reflexivity.
Defined.

End VlcFacts.

(* ================================================================= *)
(** ** More on fetching *)

Module FetchFacts.
Import Browser.

Section Fetch.

Variable urlparse : string -> option (string * string).
Variable http_get : string -> fetched.

Lemma fetch_raise (self : t) (url : string) (e : exn) :
  snd (fetch_playlist urlparse http_get self url) = Raise e ->
  channels (fst (fetch_playlist urlparse http_get self url)) = channels self
  /\ current_filter (fst (fetch_playlist urlparse http_get self url))
     = current_filter self
  /\ (e = URLValidationError ->
      fst (fetch_playlist urlparse http_get self url) = self)
  /\ (e <> URLValidationError ->
      playlist_url (fst (fetch_playlist urlparse http_get self url))
      = Some url).
Proof.
  unfold fetch_playlist.
  destruct (validate_url urlparse url); cbn [negb];
    [|intros H; inversion H; repeat split; auto; congruence].
  destruct (http_get url) as [r | |];
    try (intros H; inversion H; repeat split; auto; discriminate).
  destruct (raises_for_status r);
    [intros H; inversion H; repeat split; auto; discriminate|].
  destruct (startswith (strip (text r)) "#EXTM3U"); cbn [negb];
    [discriminate|].
  intros H; inversion H; repeat split; auto; discriminate.
Qed.

Lemma fetch_return (self : t) (url : string) (b : bool) :
  snd (fetch_playlist urlparse http_get self url) = Return b ->
  b = true
  /\ playlist_url (fst (fetch_playlist urlparse http_get self url)) = Some url
  /\ exists r,
       http_get url = Got r
       /\ startswith (strip (text r)) "#EXTM3U" = true
       /\ channels (fst (fetch_playlist urlparse http_get self url))
          = Parser._parse_playlist (text r).
Proof.
  unfold fetch_playlist.
  destruct (validate_url urlparse url); cbn [negb]; [|discriminate].
  destruct (http_get url) as [r | |]; try discriminate.
  destruct (raises_for_status r); [discriminate|].
  destruct (startswith (strip (text r)) "#EXTM3U") eqn:E; cbn [negb];
    [|discriminate].
  intros H; inversion H. repeat split. now exists r.
Qed.

End Fetch.

(** X26. However a fetch fails, the stored channel list and the current
    filter are what they were; after an invalid URL the whole object is
    unchanged, and after any other failure it holds the new URL. *)
Theorem fetch_failure_keeps_channels
  (urlparse : string -> option (string * string))
  (http_get : string -> fetched)
  (self : t) (url : string) (e : exn) :
  snd (fetch_playlist urlparse http_get self url) = Raise e ->
  channels (fst (fetch_playlist urlparse http_get self url)) = channels self
  /\ current_filter (fst (fetch_playlist urlparse http_get self url))
     = current_filter self
  /\ (e = URLValidationError ->
      fst (fetch_playlist urlparse http_get self url) = self)
  /\ (e <> URLValidationError ->
      playlist_url (fst (fetch_playlist urlparse http_get self url))
      = Some url).
Proof. apply fetch_raise. Qed.

Lemma fetch_failure_keeps_channels_witness :
  channels
    (fst (fetch_playlist Samples.urlparse_any (fun _ => Crashed)
            Samples.stored "http://example.org/list.m3u"))
  = channels Samples.stored
  /\ current_filter
       (fst (fetch_playlist Samples.urlparse_any (fun _ => Crashed)
               Samples.stored "http://example.org/list.m3u"))
     = current_filter Samples.stored
  /\ (OtherError = URLValidationError ->
      fst (fetch_playlist Samples.urlparse_any (fun _ => Crashed)
             Samples.stored "http://example.org/list.m3u")
      = Samples.stored)
  /\ (OtherError <> URLValidationError ->
      playlist_url
        (fst (fetch_playlist Samples.urlparse_any (fun _ => Crashed)
                Samples.stored "http://example.org/list.m3u"))
      = Some "http://example.org/list.m3u").
Proof.
  apply (fetch_failure_keeps_channels Samples.urlparse_any
           (fun _ => Crashed) Samples.stored "http://example.org/list.m3u"
           OtherError).
  reflexivity.
Defined.

(** X27. A fetch that succeeds returns true, stores the URL, and replaces the
    channel list by the parse of the response body, which starts with
    the header token: nothing of the old list is kept. *)
Theorem fetch_success_replaces_channels
  (urlparse : string -> option (string * string))
  (http_get : string -> fetched)
  (self : t) (url : string) (b : bool) :
  snd (fetch_playlist urlparse http_get self url) = Return b ->
  b = true
  /\ playlist_url (fst (fetch_playlist urlparse http_get self url)) = Some url
  /\ exists r,
       http_get url = Got r
       /\ startswith (strip (text r)) "#EXTM3U" = true
       /\ channels (fst (fetch_playlist urlparse http_get self url))
          = Parser._parse_playlist (text r).
Proof. apply fetch_return. Qed.

Lemma fetch_success_replaces_channels_witness :
  true = true
  /\ playlist_url
       (fst (fetch_playlist Samples.urlparse_any MoreSamples.http_get_empty
               Samples.stored "http://example.org/empty.m3u"))
     = Some "http://example.org/empty.m3u"
  /\ exists r,
       MoreSamples.http_get_empty "http://example.org/empty.m3u" = Got r
       /\ startswith (strip (text r)) "#EXTM3U" = true
       /\ channels
            (fst (fetch_playlist Samples.urlparse_any
                    MoreSamples.http_get_empty Samples.stored
                    "http://example.org/empty.m3u"))
          = Parser._parse_playlist (text r).
Proof.
  apply (fetch_success_replaces_channels Samples.urlparse_any
           MoreSamples.http_get_empty Samples.stored
           "http://example.org/empty.m3u" true).
  reflexivity.
Defined.

End FetchFacts.

(* ================================================================= *)
(** ** The session and the start of the program *)

Module MenuFacts.
Import Shell Vocab SearchFacts GroupFacts ShellMore FetchFacts Menu.

Lemma search_incl (partial_ratio : string -> string -> Z)
  (chans : list IPTVChannel) (query : string) :
  incl (Browser.search_channels partial_ratio chans query) chans.
Proof.
  rewrite search_channels_filter.
  destruct (nonempty (lower (strip query)));
    [apply incl_filter | apply incl_nil_l].
Qed.

Lemma lookup_members (chans cs : list IPTVChannel) (key : string) :
  lookup (Browser.group_channels chans) key = Some cs ->
  cs <> [] /\ incl cs chans.
Proof.
  unfold Browser.group_channels. rewrite lookup_fold. cbn [lookup].
  destruct (members key chans) as [|c ms] eqn:E; [discriminate|].
  intros H; inversion H; subst. split; [discriminate|].
  rewrite <- E. apply incl_filter.
Qed.

Lemma browse_groups_call (groups : groups_t) (answer : string)
  (cs : list IPTVChannel) (out : list output) :
  browse_groups_iter groups answer = (Call cs, out) ->
  exists key, lookup groups key = Some cs.
Proof.
  unfold browse_groups_iter.
  destruct (String.eqb (lower answer) "b"); [discriminate|].
  destruct (int answer) as [n|]; [|discriminate].
  destruct (index (map fst groups) (n - 1)) as [key|]; [|discriminate].
  destruct (lookup groups key) as [cs'|] eqn:E; [|discriminate].
  intros H; inversion H; subst. now exists key.
Qed.

Lemma browse_groups_quiet (groups : groups_t) (answer : string) :
  launches_nothing (snd (browse_groups_iter groups answer)).
Proof.
  unfold browse_groups_iter, launches_nothing.
  destruct (String.eqb (lower answer) "b"); [no_spawn|].
  destruct (int answer) as [n|]; [|no_spawn].
  destruct (index (map fst groups) (n - 1)) as [key|]; [|no_spawn].
  destruct (lookup groups key); no_spawn.
Qed.

Section Session.

Variable partial_ratio : string -> string -> Z.
Variable h : host.
Variable chans : list IPTVChannel.
Hypothesis chans_nonempty : chans <> [].

Lemma react_keeps_frames (pos : list frame) (answer : string) :
  Forall (frame_ok chans) pos ->
  Forall (frame_ok chans) (fst (react partial_ratio h chans pos answer)).
Proof.
  intros Hpos. destruct pos as [|f outer]; [constructor|].
  pose proof (Forall_inv_tail Hpos) as Houter.
  destruct f as [| |[cs|groups]]; cbn [react].
  - unfold main_menu_iter.
    destruct (String.eqb answer "1");
      [cbn; constructor; [split; [exact chans_nonempty | apply incl_refl]
                         | exact Hpos]|].
    destruct (String.eqb answer "2"); [cbn; now constructor|].
    destruct (String.eqb answer "3"); [cbn; now constructor|].
    destruct (String.eqb answer "4"); [exact Houter | exact Hpos].
  - unfold search_menu_iter.
    destruct (String.eqb (lower answer) "b"); [exact Houter|].
    destruct (Browser.search_channels partial_ratio chans answer)
      as [|r rs] eqn:E; [exact Hpos|].
    cbn. constructor; [|exact Hpos].
    split; [discriminate|]. rewrite <- E. apply search_incl.
  - destruct (browse_channels_iter h cs answer) as [[| |x] out];
      [exact Hpos | exact Houter | exact Hpos].
  - destruct (browse_groups_iter groups answer) as [[| |cs] out] eqn:E;
      [exact Hpos | exact Houter |].
    cbn. constructor; [|exact Hpos].
    apply browse_groups_call in E as [key Hkey].
    pose proof (Forall_inv Hpos) as Hg. cbn in Hg. subst groups.
    now apply (lookup_members chans cs key).
Qed.

Lemma react_launches (pos : list frame) (answer : string) :
  Forall (frame_ok chans) pos ->
  launches_only (fst (setup_vlc h)) chans
    (snd (react partial_ratio h chans pos answer)).
Proof.
  intros Hpos. destruct pos as [|f outer]; [no_spawn|].
  destruct f as [| |[cs|groups]]; cbn [react].
  - destruct (main_menu_iter chans answer); no_spawn.
  - unfold search_menu_iter.
    destruct (String.eqb (lower answer) "b"); [no_spawn|].
    destruct (Browser.search_channels partial_ratio chans answer); no_spawn.
  - pose proof (Forall_inv Hpos) as [_ Hincl].
    destruct (browse_channels_spawns h cs answer) as [Hl _].
    assert (Hout : launches_only (fst (setup_vlc h)) chans
                     (snd (browse_channels_iter h cs answer))).
    { intros argv Hin. destruct (Hl argv Hin) as (c & Hc & ->).
      exists c. split; [now apply Hincl | reflexivity]. }
    destruct (browse_channels_iter h cs answer) as [[| |x] out]; exact Hout.
  - pose proof (browse_groups_quiet groups answer) as Hq.
    assert (Hout : launches_only (fst (setup_vlc h)) chans
                     (snd (browse_groups_iter groups answer))).
    { intros argv Hin. now destruct (Hq argv). }
    destruct (browse_groups_iter groups answer) as [[| |cs] out]; exact Hout.
Qed.

Lemma session_inv (answers : list string) (pos : list frame) :
  Forall (frame_ok chans) pos ->
  Forall (frame_ok chans) (fst (session partial_ratio h chans pos answers))
  /\ launches_only (fst (setup_vlc h)) chans
       (snd (session partial_ratio h chans pos answers)).
Proof.
  revert pos. induction answers as [|a rest IH]; intros pos Hpos.
  - split; [exact Hpos | no_spawn].
  - cbn [session].
    pose proof (react_keeps_frames pos a Hpos) as H1.
    pose proof (react_launches pos a Hpos) as H2.
    destruct (react partial_ratio h chans pos a) as [pos1 out1].
    destruct (IH pos1 H1) as [H3 H4].
    destruct (session partial_ratio h chans pos1 rest) as [pos2 out2].
    split; [exact H3|]. intros argv Hin.
    apply in_app_or in Hin as [Hin | Hin]; [now apply H2 | now apply H4].
Qed.

End Session.

(** X28. Through a whole session that starts in the main menu over a list
    that is not empty, whatever is typed: every channel screen shows a
    non-empty selection of the stored channels, every group screen shows
    their groups, and the only process ever started is the player on the
    URL of a stored channel. *)
Theorem session_shows_stored_channels
  (partial_ratio : string -> string -> Z) (h : host)
  (chans : list IPTVChannel) (answers : list string) :
  chans <> [] ->
  Forall (frame_ok chans)
    (fst (session partial_ratio h chans [MainMenu] answers))
  /\ launches_only (fst (setup_vlc h)) chans
       (snd (session partial_ratio h chans [MainMenu] answers)).
Proof.
  intros Hne. apply session_inv; [exact Hne|].
  constructor; [exact I | constructor].
Qed.

Lemma session_shows_stored_channels_witness :
  Forall (frame_ok [Samples.news1; Samples.game])
    (fst (session substring_score Samples.host_with_vlc
            [Samples.news1; Samples.game] [MainMenu]
            ["3"; "game"; "1"; "b"; "b"; "2"; "0"]%string))
  /\ launches_only (fst (setup_vlc Samples.host_with_vlc))
       [Samples.news1; Samples.game]
       (snd (session substring_score Samples.host_with_vlc
               [Samples.news1; Samples.game] [MainMenu]
               ["3"; "game"; "1"; "b"; "b"; "2"; "0"]%string)).
Proof.
  apply (session_shows_stored_channels substring_score Samples.host_with_vlc
           [Samples.news1; Samples.game]
           ["3"; "game"; "1"; "b"; "b"; "2"; "0"]%string).
  discriminate.
Defined.

Section Main.

Variable urlparse : string -> option (string * string).
Variable http_get : string -> Browser.fetched.


End Main.


End MenuFacts.
